(** * CardAnimator: the animation timer of the WebGPU card demo

    A shallow embedding of the [CardAnimator] class of the card-grid
    component and the properties of its four operations.

    - A JavaScript [number] is an IEEE 754 binary64 value: Rocq's primitive
      [float], whose operations round to nearest, ties to even.  Properties
      of the arithmetic are proved through the library's specification of
      the primitive operations ([Prim2SF], [SFadd], [SFmul], ...), with each
      value read as the real number it denotes.
    - [Map<number, {...}>] is a finite map [gmap Z animation]; the keys are
      the integer card indices its callers use.
    - [performance.now()] reads a clock: every operation that reads it takes
      the reading as its first argument [now].
    - [update] returns [number | null] and may delete an entry: it yields the
      pair of an [option float] and the map after the call. *)

From Stdlib Require Import ZArith Floats Lia Reals ROrderedType Lra Psatz.
From stdpp Require Import gmap.

Set Warnings "-inexact-float".

(** ** JavaScript's [Math] functions the class calls *)

Module Math.
Local Open Scope float_scope.

(** [Math.min(a, b)]: [NaN] when an argument is [NaN], else the smaller
    one, with [-0] below [+0]. *)
Definition min (a b : float) : float :=
  if PrimFloat.is_nan a || PrimFloat.is_nan b then nan
  else if a <? b then a
  else if b <? a then b
  else if get_sign a then a else b.

(** [Math.pow(base, 2)], the only exponent the class uses.  ECMAScript
    leaves the result of [Math.pow] implementation-approximated; for the
    exponent 2 the engines return the correctly rounded square, which is
    what the model takes. *)
Definition pow2 (base : float) : float := base * base.

End Math.

(** ** The class *)

Module CardAnimator.
Local Open Scope float_scope.

(** The [property] tag of an entry: ["flip" | "hover"]. *)
Inductive property_tag := flip | hover.

(** The value type of the [animations] map. *)
Record animation := {
  startTime : float;
  duration : float;
  from : float;
  to : float;
  property : property_tag;
}.

(** [private animations = new Map()]: a new animator has no entry. *)
Definition empty : gmap Z animation := ∅.

(** [this.animations.set(cardId, {startTime: performance.now(), ...})] *)
Definition startAnimation (now : float) (cardId : Z) (property : property_tag)
    (from to duration : float) (animations : gmap Z animation)
    : gmap Z animation :=
  <[cardId := {| startTime := now; duration := duration; from := from;
                 to := to; property := property |}]> animations.

Definition update (now : float) (cardId : Z) (animations : gmap Z animation)
    : option float * gmap Z animation :=
  match animations !! cardId with
  | None => (None, animations)
  | Some anim =>
      let elapsed := now - startTime anim in
      let progress := Math.min (elapsed / duration anim) 1.0 in
      let eased :=
        if progress <? 0.5
        then 2 * progress * progress
        else 1 - Math.pow2 (-2 * progress + 2) / 2 in
      let value := from anim + (to anim - from anim) * eased in
      (Some value,
       if 1.0 <=? progress then delete cardId animations else animations)
  end.

(** [this.animations.has(cardId)] *)
Definition isAnimating (cardId : Z) (animations : gmap Z animation) : bool :=
  bool_decide (is_Some (animations !! cardId)).

(** [this.animations.size > 0] *)
Definition hasActiveAnimations (animations : gmap Z animation) : bool :=
  bool_decide (0 < size animations)%nat.

(** *** The contract of [update] in the words of the specification *)

(** Progress: elapsed time over the duration, clamped at 1. *)
Definition progress_of (elapsed durationMs : float) : float :=
  Math.min (elapsed / durationMs) 1.0.

(** The easing: [2 p²] below one half, [1 - (-2p+2)² / 2] from there on. *)
Definition ease (p : float) : float :=
  if p <? 0.5 then 2 * p * p
  else 1 - ((-2 * p + 2) * (-2 * p + 2)) / 2.

(** The two branches of [ease], named. *)
Definition ease_in (p : float) : float := 2 * p * p.

Definition ease_out (p : float) : float :=
  1 - ((-2 * p + 2) * (-2 * p + 2)) / 2.

(** Linear interpolation from [a] to [b]. *)
Definition lerp (a b t : float) : float := a + (b - a) * t.

(** The value the specification gives an entry at an elapsed time. *)
Definition value_at (anim : animation) (elapsed : float) : float :=
  lerp (from anim) (to anim) (ease (progress_of elapsed (duration anim))).

(** Whether [update] at this clock reading completes the entry. *)
Definition completes (anim : animation) (now : float) : bool :=
  1.0 <=? progress_of (now - startTime anim) (duration anim).

(** Repeated [update] calls for one card, one per clock reading. *)
Fixpoint update_all (nows : list float) (cardId : Z) (s : gmap Z animation)
    : list (option float) * gmap Z animation :=
  match nows with
  | [] => ([], s)
  | now :: rest =>
      let '(v, s') := update now cardId s in
      let '(vs, s'') := update_all rest cardId s' in
      (v :: vs, s'')
  end.

(** A state with one running entry, for the instances of the theorems:
    [startAnimation(7, "hover", from, to, duration)] at clock reading 0 on
    a new animator. *)
Definition one_entry (from to duration : float) : gmap Z animation :=
  startAnimation 0 7 hover from to duration empty.

End CardAnimator.

(** ** Binary64 values as real numbers *)

Module Binary64.
Local Open Scope R_scope.

(** [2^e] *)
Definition bpow (e : Z) : R := powerRZ 2 e.

Definition sgn (s : bool) : R := if s then -1 else 1.

(** The real number a value denotes; an infinity stands for [± 2^1024],
    the first magnitude out of range. *)
Definition B2R (x : spec_float) : R :=
  match x with
  | S754_zero _ => 0
  | S754_infinity s => sgn s * bpow 1024
  | S754_nan => 0
  | S754_finite s m e => sgn s * (IZR (Zpos m) * bpow e)
  end.

Definition not_nan (x : spec_float) : bool :=
  match x with S754_nan => false | _ => true end.

Definition is_finite_SF (x : spec_float) : bool :=
  match x with S754_zero _ | S754_finite _ _ _ => true | _ => false end.

(** The reals of the format: 53-bit mantissas from exponent [-1074] on,
    up to [2^1024] in magnitude. *)
Definition in_format (t : R) : Prop :=
  exists m e, t = IZR m * bpow e /\ (Z.abs m < 2 ^ 53)%Z /\ (-1074 <= e)%Z
              /\ Rabs t <= bpow 1024.

(** [r] is a value of the format nearest to [v]. *)
Definition nearest (v r : R) : Prop :=
  in_format r /\ forall t, in_format t -> Rabs (v - r) <= Rabs (v - t).

(** Where [v] lies between [m 2^e] and [(m+1) 2^e]. *)
Definition inbetween (m e : Z) (l : location) (v : R) : Prop :=
  match l with
  | loc_Exact => v = IZR m * bpow e
  | loc_Inexact c =>
      IZR m * bpow e < v < (IZR m + 1) * bpow e /\
      Rcompare v ((IZR m + / 2) * bpow e) = c
  end.

Definition inb_rec (mrs : shr_record) (e : Z) (v : R) : Prop :=
  (0 <= shr_m mrs)%Z /\ inbetween (shr_m mrs) e (loc_of_shr_record mrs) v.

(** The exponent of the format for a magnitude of [k] bits. *)
Definition fexp64 (k : Z) : Z := Z.max (k - 53) (-1074).

(** The real a [float] denotes. *)
Definition FR (x : float) : R := B2R (Prim2SF x).

(** A [float] that is neither [NaN] nor infinite. *)
Definition finite (x : float) : Prop := is_finite_SF (Prim2SF x) = true.

End Binary64.

Import CardAnimator Binary64.

(** * Binary64 arithmetic *)

Local Open Scope R_scope.

(** ** Powers of two *)

Lemma bpow_gt_0 e : 0 < bpow e.
Proof. apply powerRZ_lt; lra. Qed.

Lemma bpow_add a b : bpow (a + b) = bpow a * bpow b.
Proof. apply powerRZ_add; lra. Qed.

Lemma IZR_pow2 n : (0 <= n)%Z -> IZR (2 ^ n) = bpow n.
Proof.
  intros H. unfold bpow. destruct n as [|p|p]; [reflexivity| |lia].
  rewrite <- Zpower_pos_powerRZ. reflexivity.
Qed.

Lemma bpow_ge_1 n : (0 <= n)%Z -> 1 <= bpow n.
Proof.
  intros H. rewrite <- IZR_pow2 by exact H. apply IZR_le.
  pose proof (Z.pow_pos_nonneg 2 n). lia.
Qed.

Lemma bpow_le a b : (a <= b)%Z -> bpow a <= bpow b.
Proof.
  intros H. replace b with (a + (b - a))%Z by ring. rewrite bpow_add.
  pose proof (bpow_ge_1 (b - a)). pose proof (bpow_gt_0 a).
  assert (1 <= bpow (b - a)) by (apply H0; lia). nra.
Qed.

Lemma bpow_1 : bpow 1 = 2.
Proof. unfold bpow. simpl. lra. Qed.

Lemma bpow_0 : bpow 0 = 1.
Proof. reflexivity. Qed.

Lemma bpow_succ e : bpow (e + 1) = 2 * bpow e.
Proof. rewrite bpow_add, bpow_1. ring. Qed.

Lemma bpow_lt a b : (a < b)%Z -> bpow a < bpow b.
Proof.
  intros H. replace b with (a + 1 + (b - a - 1))%Z by ring.
  rewrite bpow_add, bpow_succ.
  assert (1 <= bpow (b - a - 1)) by (apply bpow_ge_1; lia).
  pose proof (bpow_gt_0 a). nra.
Qed.

(** ** Mantissas and exponents of valid values *)

Lemma digits2_size p : digits2_pos p = Pos.size p.
Proof. induction p as [p IH|p IH|]; simpl; now rewrite ?IH. Qed.

Lemma digits2_log2 p : Zpos (digits2_pos p) = (Z.log2 (Zpos p) + 1)%Z.
Proof. rewrite digits2_size. destruct p; simpl; lia. Qed.

Lemma digits2_bounds p :
  (2 ^ (Zpos (digits2_pos p) - 1) <= Zpos p < 2 ^ Zpos (digits2_pos p))%Z.
Proof.
  rewrite digits2_log2. replace (Z.log2 (Zpos p) + 1 - 1)%Z with (Z.log2 (Zpos p)) by ring.
  pose proof (Z.log2_spec (Zpos p)). unfold Z.succ in *. lia.
Qed.

(** What [valid_binary] says of a finite value's mantissa and exponent. *)
Lemma bounded_inv m e :
  SpecFloat.bounded FloatOps.prec FloatOps.emax m e = true ->
  (Zpos m < 2 ^ 53 /\ -1074 <= e <= 971 /\ (e = -1074 \/ 2 ^ 52 <= Zpos m))%Z.
Proof.
  unfold SpecFloat.bounded, canonical_mantissa, fexp, SpecFloat.emin, FloatOps.prec, FloatOps.emax.
  intros H. apply andb_prop in H as [H1 H2].
  apply Z.eqb_eq in H1. apply Z.leb_le in H2.
  pose proof (digits2_bounds m) as [Hlo Hhi].
  set (d := Zpos (digits2_pos m)) in *.
  assert (Hd : (d <= 53)%Z) by lia.
  split; [|split; [lia|]].
  - eapply Z.lt_le_trans; [exact Hhi|]. apply Z.pow_le_mono_r; lia.
  - destruct (Z.eq_dec e (-1074)%Z) as [|Hne]; [now left|right].
    assert (d = 53)%Z by lia. subst d. rewrite H in Hlo. exact Hlo.
Qed.

(** ** The order of values *)

Lemma Rcompare_Lt x y : x < y -> Rcompare x y = Lt.
Proof. intros H. destruct (Rcompare_spec x y); [lra|reflexivity|lra]. Qed.

Lemma Rcompare_Gt x y : y < x -> Rcompare x y = Gt.
Proof. intros H. destruct (Rcompare_spec x y); [lra|lra|reflexivity]. Qed.

Lemma Rcompare_Eq x y : x = y -> Rcompare x y = Eq.
Proof. intros H. destruct (Rcompare_spec x y); [reflexivity|lra|lra]. Qed.

Lemma finite_pos_range m e :
  SpecFloat.bounded FloatOps.prec FloatOps.emax m e = true ->
  0 < IZR (Zpos m) * bpow e < bpow 1024.
Proof.
  intros H. apply bounded_inv in H as (Hm & He & _).
  pose proof (bpow_gt_0 e).
  assert (0 < IZR (Zpos m)) by (apply IZR_lt; lia).
  split; [nra|].
  apply IZR_lt in Hm. rewrite IZR_pow2 in Hm by lia.
  apply Rlt_le_trans with (bpow 53 * bpow e); [nra|].
  rewrite <- bpow_add. apply bpow_le. lia.
Qed.

Lemma finite_lt_exp m1 e1 m2 e2 :
  SpecFloat.bounded FloatOps.prec FloatOps.emax m1 e1 = true ->
  SpecFloat.bounded FloatOps.prec FloatOps.emax m2 e2 = true ->
  (e1 < e2)%Z ->
  IZR (Zpos m1) * bpow e1 < IZR (Zpos m2) * bpow e2.
Proof.
  intros H1 H2 He.
  apply bounded_inv in H1 as (Hm1 & He1 & _).
  apply bounded_inv in H2 as (_ & He2 & [Heq|Hm2]); [lia|].
  apply IZR_lt in Hm1. apply IZR_le in Hm2.
  rewrite IZR_pow2 in Hm1, Hm2 by lia.
  pose proof (bpow_gt_0 e1). pose proof (bpow_gt_0 e2).
  apply Rlt_le_trans with (bpow 53 * bpow e1); [nra|].
  apply Rle_trans with (bpow 52 * bpow e2); [|nra].
  rewrite <- !bpow_add. apply bpow_le. lia.
Qed.

Lemma finite_cmp_mant (m1 m2 : positive) e :
  Rcompare (IZR (Zpos m1) * bpow e) (IZR (Zpos m2) * bpow e) = Pos.compare m1 m2.
Proof.
  pose proof (bpow_gt_0 e).
  destruct (Pos.compare_spec m1 m2) as [->|Hlt|Hgt].
  - apply Rcompare_Eq. reflexivity.
  - apply Rcompare_Lt. assert (IZR (Zpos m1) < IZR (Zpos m2)) by (apply IZR_lt; lia). nra.
  - apply Rcompare_Gt. assert (IZR (Zpos m2) < IZR (Zpos m1)) by (apply IZR_lt; lia). nra.
Qed.

Lemma finite_cmp m1 e1 m2 e2 :
  SpecFloat.bounded FloatOps.prec FloatOps.emax m1 e1 = true ->
  SpecFloat.bounded FloatOps.prec FloatOps.emax m2 e2 = true ->
  Rcompare (IZR (Zpos m1) * bpow e1) (IZR (Zpos m2) * bpow e2) =
  match Z.compare e1 e2 with
  | Lt => Lt | Gt => Gt | Eq => Pos.compare_cont Eq m1 m2
  end.
Proof.
  intros H1 H2. destruct (Z.compare_spec e1 e2) as [->|Hlt|Hgt].
  - apply finite_cmp_mant.
  - apply Rcompare_Lt. now apply finite_lt_exp.
  - apply Rcompare_Gt. now apply finite_lt_exp.
Qed.

Lemma Rcompare_opp a b : Rcompare (- a) (- b) = CompOpp (Rcompare a b).
Proof.
  destruct (Rcompare_spec a b); simpl;
    [apply Rcompare_Eq | apply Rcompare_Gt | apply Rcompare_Lt]; lra.
Qed.

(** The order of binary64 values is the order of the reals they denote,
    with the infinities at [± 2^1024]. *)
Lemma SFcompare_B2R x y :
  valid_binary x = true -> valid_binary y = true ->
  not_nan x = true -> not_nan y = true ->
  SFcompare x y = Some (Rcompare (B2R x) (B2R y)).
Proof.
  intros Vx Vy Nx Ny.
  pose proof (bpow_gt_0 1024) as Hinf.
  destruct x as [sx|sx| |sx mx ex], y as [sy|sy| |sy my ey]; try discriminate;
    simpl in Vx, Vy; unfold SFcompare, B2R; f_equal; symmetry;
    try (pose proof (finite_pos_range _ _ Vx)); try (pose proof (finite_pos_range _ _ Vy)).
  9: {
    destruct sx, sy; unfold sgn.
    + replace (-1 * (IZR (Zpos mx) * bpow ex)) with (- (IZR (Zpos mx) * bpow ex)) by ring.
      replace (-1 * (IZR (Zpos my) * bpow ey)) with (- (IZR (Zpos my) * bpow ey)) by ring.
      rewrite Rcompare_opp, (finite_cmp _ _ _ _ Vx Vy).
      destruct (Z.compare ex ey); reflexivity.
    + apply Rcompare_Lt; lra.
    + apply Rcompare_Gt; lra.
    + rewrite !Rmult_1_l. apply (finite_cmp _ _ _ _ Vx Vy). }
  all: try destruct sx; try destruct sy; unfold sgn;
    first [apply Rcompare_Eq; lra | apply Rcompare_Lt; lra | apply Rcompare_Gt; lra].
Qed.

(** ** Shifting a mantissa right keeps track of the discarded bits *)

Lemma Rcompare_inv x y c :
  Rcompare x y = c ->
  match c with Lt => x < y | Eq => x = y | Gt => y < x end.
Proof. intros <-. destruct (Rcompare_spec x y); assumption. Qed.

(** Closes the cases of one right shift: the location read off the record
    before and after. *)
Ltac inb_solve :=
  repeat match goal with
  | H : _ /\ _ |- _ => destruct H
  | H : Rcompare _ _ = _ |- _ => apply Rcompare_inv in H; cbv beta iota in H
  end;
  repeat split;
  try first [apply Rcompare_Lt | apply Rcompare_Gt | apply Rcompare_Eq];
  nra.

Lemma shr_1_inb mrs e v :
  inb_rec mrs e v ->
  inb_rec (shr_1 mrs) (e + 1) v /\ shr_m (shr_1 mrs) = Z.div2 (shr_m mrs).
Proof.
  destruct mrs as [m r s]. unfold inb_rec. cbn [shr_m].
  intros [Hm H]. pose proof (bpow_succ e) as Hs. pose proof (bpow_gt_0 e) as Hb.
  destruct m as [|p|p]; [| |lia].
  - destruct r, s; cbn in *; rewrite Hs; (split; [split; [lia|]|reflexivity]);
      inb_solve.
  - destruct p as [p|p|];
      [ assert (Hp : IZR (Zpos p~1) = 2 * IZR (Zpos p) + 1)
          by (rewrite Pos2Z.inj_xI, plus_IZR, mult_IZR; reflexivity)
      | assert (Hp : IZR (Zpos p~0) = 2 * IZR (Zpos p))
          by (rewrite Pos2Z.inj_xO, mult_IZR; reflexivity)
      | assert (Hp : IZR 1 = 1) by reflexivity ];
      destruct r, s; cbn [shr_1 shr_m loc_of_shr_record orb inbetween Z.div2 Pos.div2] in *;
      rewrite Hs;
      (split; [split; [lia|]|reflexivity]);
      rewrite ?Hp in *; inb_solve.
Qed.

Lemma iter_shr_1_inb n : forall mrs e v,
  inb_rec mrs e v ->
  inb_rec (SpecFloat.iter_pos shr_1 n mrs) (e + Zpos n) v /\
  shr_m (SpecFloat.iter_pos shr_1 n mrs) = (shr_m mrs / 2 ^ Zpos n)%Z.
Proof.
  assert (Hdd : forall a k l : Z, (0 <= k -> 0 <= l -> a / 2 ^ k / 2 ^ l = a / 2 ^ (k + l))%Z).
  { intros a k l Hk Hl. rewrite Z.pow_add_r by assumption.
    apply Z.div_div; [apply Z.pow_nonzero|apply Z.pow_pos_nonneg]; lia. }
  induction n as [n IH|n IH|]; intros mrs e v H; cbn [SpecFloat.iter_pos].
  - apply shr_1_inb in H as [H Hm].
    apply IH in H as [H Hm1]. apply IH in H as [H Hm2].
    split.
    + replace (e + Zpos n~1)%Z with (e + 1 + Zpos n + Zpos n)%Z by lia. exact H.
    + rewrite Hm2, Hm1, Hm, Z.div2_div.
      change 2%Z with (2 ^ 1)%Z at 1. rewrite !Hdd by lia. f_equal. f_equal. lia.
  - apply IH in H as [H Hm1]. apply IH in H as [H Hm2].
    split.
    + replace (e + Zpos n~0)%Z with (e + Zpos n + Zpos n)%Z by lia. exact H.
    + rewrite Hm2, Hm1, !Hdd by lia. f_equal. f_equal. lia.
  - apply shr_1_inb in H as [H Hm]. split; [exact H|].
    rewrite Hm, Z.div2_div. reflexivity.
Qed.

Lemma loc_of_shr_record_of_loc m l :
  loc_of_shr_record (shr_record_of_loc m l) = l /\ shr_m (shr_record_of_loc m l) = m.
Proof. destruct l as [|[]]; split; reflexivity. Qed.

Lemma fexp64_eq k : fexp FloatOps.prec FloatOps.emax k = fexp64 k.
Proof. reflexivity. Qed.

Lemma Zdigits2_bounds m :
  (0 <= m)%Z -> (0 <= Zdigits2 m /\ m < 2 ^ Zdigits2 m /\ (0 < m -> 2 ^ (Zdigits2 m - 1) <= m))%Z.
Proof.
  intros H. destruct m as [|p|p]; [simpl; lia| |lia].
  pose proof (digits2_bounds p). simpl Zdigits2. lia.
Qed.

(** Truncating a mantissa to the exponent the format gives its magnitude. *)
Lemma shr_fexp_inb m e l v :
  (0 <= m)%Z -> inbetween m e l v ->
  (e <= fexp64 (Zdigits2 m + e))%Z ->
  let '(mrs, e') := shr_fexp FloatOps.prec FloatOps.emax m e l in
  e' = fexp64 (Zdigits2 m + e) /\ inb_rec mrs e' v /\
  shr_m mrs = (m / 2 ^ (e' - e))%Z /\
  (shr_m mrs < 2 ^ 53)%Z /\ (e' = (-1074)%Z \/ (2 ^ 52 <= shr_m mrs)%Z).
Proof.
  intros Hm Hin Hpre. unfold shr_fexp. rewrite fexp64_eq.
  remember (fexp64 (Zdigits2 m + e)) as e' eqn:He'.
  pose proof (loc_of_shr_record_of_loc m l) as [Hl Hmm].
  assert (H0 : inb_rec (shr_record_of_loc m l) e v).
  { split; [rewrite Hmm; exact Hm | rewrite Hl, Hmm; exact Hin]. }
  pose proof (Zdigits2_bounds m Hm) as (Hd0 & Hhi & Hlo).
  remember (Zdigits2 m) as d eqn:Hd.
  assert (Hres : forall mrs e1, e1 = e' -> inb_rec mrs e' v ->
     shr_m mrs = (m / 2 ^ (e' - e))%Z ->
     e1 = e' /\ inb_rec mrs e1 v /\ shr_m mrs = (m / 2 ^ (e1 - e))%Z /\
     (shr_m mrs < 2 ^ 53)%Z /\ (e1 = (-1074)%Z \/ (2 ^ 52 <= shr_m mrs)%Z)).
  { intros mrs e1 -> Hi Hq.
    split; [reflexivity|]. split; [assumption|]. split; [assumption|]. split.
    - rewrite Hq. apply Z.div_lt_upper_bound; [apply Z.pow_pos_nonneg; lia|].
      rewrite <- Z.pow_add_r by lia.
      eapply Z.lt_le_trans; [exact Hhi|]. apply Z.pow_le_mono_r; unfold fexp64 in *; lia.
    - destruct (Z.eq_dec e' (-1074)%Z) as [|Hne]; [now left|right].
      assert (He1 : e' = (d + e - 53)%Z) by (unfold fexp64 in *; lia).
      assert (0 < m)%Z.
      { destruct (Z.eq_dec m 0%Z) as [->|]; [|lia]. simpl in Hd. lia. }
      rewrite Hq. apply Z.div_le_lower_bound; [apply Z.pow_pos_nonneg; lia|].
      rewrite <- Z.pow_add_r by lia.
      replace (e' - e + 52)%Z with (d - 1)%Z by lia. auto. }
  unfold shr. destruct (e' - e)%Z as [|p|p] eqn:Hn.
  - assert (e = e') as He by lia.
    apply Hres; [exact He | rewrite <- He; exact H0 |].
    rewrite Hmm, Z.div_1_r. reflexivity.
  - destruct (iter_shr_1_inb p _ _ _ H0) as [Hi Hq].
    assert (He : (e + Zpos p)%Z = e') by lia.
    apply Hres; [exact He | rewrite <- He; exact Hi |].
    rewrite Hq, Hmm. reflexivity.
  - lia.
Qed.

(** ** Nearest values of the format *)

(** No value of the format lies strictly between two consecutive multiples
    of the unit in the last place. *)
Lemma format_gap m' e' t :
  (0 <= m' < 2 ^ 53)%Z -> (-1074 <= e')%Z ->
  (e' = (-1074)%Z \/ (2 ^ 52 <= m')%Z) ->
  in_format t ->
  t <= IZR m' * bpow e' \/ (IZR m' + 1) * bpow e' <= t.
Proof.
  intros Hm He Hn (mt & et & -> & Hmt & Het & _).
  pose proof (bpow_gt_0 e') as Hb'. pose proof (bpow_gt_0 et) as Hbt.
  assert (H0 : 0 <= IZR m') by (apply IZR_le; lia).
  destruct (Z_le_gt_dec mt 0%Z) as [Hneg|Hpos].
  { left. apply IZR_le in Hneg. nra. }
  destruct (Z_le_gt_dec e' et) as [Hge|Hlt].
  - set (k := (mt * 2 ^ (et - e'))%Z).
    assert (Hk : IZR mt * bpow et = IZR k * bpow e').
    { unfold k. rewrite mult_IZR, IZR_pow2 by lia.
      replace et with ((et - e') + e')%Z at 1 by ring. rewrite bpow_add. ring. }
    rewrite Hk. destruct (Z_le_gt_dec k m') as [Hle|Hgt].
    + left. apply IZR_le in Hle. nra.
    + right. assert (Hle : (m' + 1 <= k)%Z) by lia.
      apply IZR_le in Hle. rewrite plus_IZR in Hle. nra.
  - left. destruct Hn as [->|Hn]; [lia|].
    assert (Hmt' : IZR mt < bpow 53).
    { rewrite <- IZR_pow2 by lia. apply IZR_lt. lia. }
    assert (Hm' : bpow 52 <= IZR m').
    { rewrite <- IZR_pow2 by lia. apply IZR_le. lia. }
    assert (Hee : bpow 53 * bpow et <= bpow 52 * bpow e').
    { rewrite <- !bpow_add. apply bpow_le. lia. }
    nra.
Qed.

Lemma in_format_opp t : in_format t -> in_format (- t).
Proof.
  intros (m & e & -> & Hm & He & Hb).
  exists (- m)%Z, e. rewrite opp_IZR, Rabs_Ropp, Z.abs_opp.
  repeat split; try assumption. ring.
Qed.

Lemma nearest_opp v r : nearest v r -> nearest (- v) (- r).
Proof.
  intros [Hf Hn]. split; [now apply in_format_opp|].
  intros t Ht. apply in_format_opp in Ht. specialize (Hn _ Ht).
  replace (- v - - r) with (- (v - r)) by ring.
  replace (- v - t) with (- (v - - t)) by ring.
  rewrite !Rabs_Ropp. exact Hn.
Qed.

Lemma nearest_sgn s v r : nearest v r -> nearest (sgn s * v) (sgn s * r).
Proof.
  intros H. destruct s; unfold sgn.
  - replace (-1 * v) with (- v) by ring. replace (-1 * r) with (- r) by ring.
    now apply nearest_opp.
  - now rewrite !Rmult_1_l.
Qed.

Lemma nearest_of_gap L U v r :
  L <= v <= U -> in_format r ->
  Rabs (v - r) <= v - L -> Rabs (v - r) <= U - v ->
  (forall t, in_format t -> t <= L \/ U <= t) ->
  nearest v r.
Proof.
  intros Hv Hf HL HU Hgap. split; [exact Hf|].
  intros t Ht. destruct (Hgap t Ht) as [H|H].
  - rewrite (Rabs_pos_eq (v - t)) by lra. lra.
  - rewrite (Rabs_left1 (v - t)) by lra. lra.
Qed.

Lemma nearest_overflow v :
  bpow 1024 <= v -> nearest v (bpow 1024).
Proof.
  intros Hv. split.
  - exists (2 ^ 52)%Z, 972%Z. pose proof (bpow_gt_0 1024).
    rewrite IZR_pow2, <- bpow_add by lia. simpl Z.add.
    repeat split; try lia. rewrite Rabs_pos_eq; lra.
  - intros t (m & e & -> & _ & _ & Hb).
    pose proof (Rle_abs (IZR m * bpow e)).
    rewrite (Rabs_pos_eq (v - bpow 1024)), (Rabs_pos_eq (v - _)) by lra. lra.
Qed.

(** ** Consequences of being a nearest value *)

Lemma nearest_mono v1 r1 v2 r2 :
  nearest v1 r1 -> nearest v2 r2 -> v1 < v2 -> r1 <= r2.
Proof.
  intros [F1 N1] [F2 N2] Hv.
  specialize (N1 _ F2). specialize (N2 _ F1).
  destruct (Rle_lt_dec r1 r2) as [|Hlt]; [assumption|exfalso].
  revert N1 N2. unfold Rabs.
  repeat destruct Rcase_abs; lra.
Qed.

Lemma nearest_le v r t : nearest v r -> in_format t -> v <= t -> r <= t.
Proof.
  intros [F1 N1] Ft Hv. specialize (N1 _ Ft).
  destruct (Rle_lt_dec r t) as [|Hlt]; [assumption|exfalso].
  revert N1. unfold Rabs. repeat destruct Rcase_abs; lra.
Qed.

Lemma nearest_ge v r t : nearest v r -> in_format t -> t <= v -> t <= r.
Proof.
  intros [F1 N1] Ft Hv. specialize (N1 _ Ft).
  destruct (Rle_lt_dec t r) as [|Hlt]; [assumption|exfalso].
  revert N1. unfold Rabs. repeat destruct Rcase_abs; lra.
Qed.

Lemma nearest_exact v r : nearest v r -> in_format v -> r = v.
Proof.
  intros H Hv. apply Rle_antisym.
  - eapply nearest_le; eauto. lra.
  - eapply nearest_ge; eauto. lra.
Qed.

(** ** Rounding to nearest, ties to even *)

Lemma pow2_lt_inv a b : (0 <= b)%Z -> (2 ^ a < 2 ^ b)%Z -> (a < b)%Z.
Proof. intros Hb H. apply (Z.pow_lt_mono_r_iff 2); lia. Qed.

Lemma bounded_intro m e :
  (Zpos m < 2 ^ 53)%Z -> (-1074 <= e <= 971)%Z ->
  (e = (-1074)%Z \/ (2 ^ 52 <= Zpos m)%Z) ->
  SpecFloat.bounded FloatOps.prec FloatOps.emax m e = true.
Proof.
  intros Hm He Hn.
  unfold SpecFloat.bounded, canonical_mantissa, fexp, SpecFloat.emin, FloatOps.prec, FloatOps.emax.
  pose proof (digits2_bounds m) as [Hlo Hhi].
  set (d := Zpos (digits2_pos m)) in *.
  assert (Hd : (d <= 53)%Z).
  { assert (d - 1 < 53)%Z; [|lia]. apply pow2_lt_inv; lia. }
  assert (Hd' : (e = (-1074) \/ d = 53)%Z).
  { destruct Hn as [|Hn]; [now left|right].
    assert (52 < d)%Z; [|lia]. apply pow2_lt_inv; lia. }
  apply andb_true_intro. split; [apply Z.eqb_eq | apply Z.leb_le]; lia.
Qed.

Lemma round_nearest_even_spec m e l v :
  inbetween m e l v ->
  let m2 := round_nearest_even m l in
  let L := IZR m * bpow e in
  let U := (IZR m + 1) * bpow e in
  (m2 = m \/ m2 = (m + 1)%Z) /\ L <= v <= U /\
  Rabs (v - IZR m2 * bpow e) <= v - L /\ Rabs (v - IZR m2 * bpow e) <= U - v.
Proof.
  intros H. pose proof (bpow_gt_0 e) as Hb. cbv zeta.
  assert (HU : forall m2, m2 = (m + 1)%Z -> IZR m2 * bpow e = (IZR m + 1) * bpow e).
  { intros m2 ->. rewrite plus_IZR. reflexivity. }
  destruct l as [|[| |]]; cbn [round_nearest_even inbetween] in *.
  - subst v. split; [now left|]. rewrite Rminus_diag, Rabs_R0. lra.
  - destruct H as [H1 H2]. apply Rcompare_inv in H2.
    assert (Hd : v - IZR m * bpow e = (IZR m + 1) * bpow e - v) by lra.
    destruct (Z.even m).
    + split; [now left|]. rewrite Rabs_pos_eq by lra. lra.
    + split; [now right|]. rewrite (HU _ eq_refl), Rabs_left1 by lra. lra.
  - destruct H as [H1 H2]. apply Rcompare_inv in H2.
    split; [now left|]. rewrite Rabs_pos_eq by lra. lra.
  - destruct H as [H1 H2]. apply Rcompare_inv in H2.
    split; [now right|]. rewrite (HU _ eq_refl), Rabs_left1 by lra. lra.
Qed.

(** Renormalising a rounded mantissa: it overflows its 53 bits in one case
    only, a carry into [2^53]. *)
Lemma shr_fexp_renorm m e :
  (0 <= m <= 2 ^ 53)%Z -> (-1074 <= e)%Z ->
  (e = (-1074)%Z \/ (2 ^ 52 <= m)%Z) ->
  let '(mrs, e') := shr_fexp FloatOps.prec FloatOps.emax m e loc_Exact in
  (0 <= shr_m mrs < 2 ^ 53)%Z /\ (e' = (-1074)%Z \/ (2 ^ 52 <= shr_m mrs)%Z) /\
  (e <= e')%Z /\ IZR (shr_m mrs) * bpow e' = IZR m * bpow e.
Proof.
  intros Hm He Hn.
  pose proof (Zdigits2_bounds m ltac:(lia)) as (Hd0 & Hhi & Hlo).
  assert (Hd53 : ((2 ^ 52 <= m)%Z -> 53 <= Zdigits2 m)%Z).
  { intros H. assert (52 < Zdigits2 m)%Z; [|lia]. apply pow2_lt_inv; lia. }
  assert (Hpre : (e <= fexp64 (Zdigits2 m + e))%Z).
  { unfold fexp64. destruct Hn as [->|Hn]; [lia|]. specialize (Hd53 Hn). lia. }
  pose proof (shr_fexp_inb m e loc_Exact (IZR m * bpow e) ltac:(lia) eq_refl Hpre) as H.
  destruct (shr_fexp FloatOps.prec FloatOps.emax m e loc_Exact) as [mrs e'].
  destruct H as (He' & [Hm0 _] & Hq & Hlt & Hnorm).
  split; [lia|]. split; [exact Hnorm|]. split; [lia|].
  destruct (Z.eq_dec m (2 ^ 53)%Z) as [->|Hne].
  - change (Zdigits2 (2 ^ 53)) with 54%Z in He'.
    assert (e' = (e + 1)%Z) by (unfold fexp64 in He'; lia). clear He'. subst e'.
    replace (e + 1 - e)%Z with 1%Z in Hq by lia.
    rewrite Hq. change (2 ^ 53 / 2 ^ 1)%Z with (2 ^ 52)%Z.
    rewrite bpow_succ, !IZR_pow2 by lia.
    change 53%Z with (52 + 1)%Z. rewrite bpow_succ. ring.
  - assert (Hd : (Zdigits2 m <= 53)%Z).
    { destruct (Z.eq_dec m 0%Z) as [->|]; [simpl; lia|].
      assert (Zdigits2 m - 1 < 53)%Z; [|lia]. apply pow2_lt_inv; lia. }
    assert (e' = e).
    { unfold fexp64 in He'. destruct Hn as [->|Hn]; [lia|]. specialize (Hd53 Hn). lia. }
    clear He'. subst e'. rewrite Z.sub_diag, Z.div_1_r in Hq. rewrite Hq. reflexivity.
Qed.

(** Rounding a located positive value: the result is valid, is not NaN and
    denotes a nearest value of the format (an infinity standing for
    [± 2^1024]). *)
Lemma binary_round_aux_correct sx mx ex lx v :
  (0 <= mx)%Z -> inbetween mx ex lx v ->
  (ex <= fexp64 (Zdigits2 mx + ex))%Z ->
  let z := binary_round_aux FloatOps.prec FloatOps.emax sx mx ex lx in
  valid_binary z = true /\ not_nan z = true /\ nearest (sgn sx * v) (B2R z).
Proof.
  intros Hmx Hin Hpre. unfold binary_round_aux.
  pose proof (shr_fexp_inb mx ex lx v Hmx Hin Hpre) as H1.
  destruct (shr_fexp FloatOps.prec FloatOps.emax mx ex lx) as [mrs1 e1].
  destruct H1 as (He1 & [Hm1 Hin1] & _ & Hlt1 & Hn1).
  pose proof (round_nearest_even_spec _ _ _ _ Hin1) as H2. cbv zeta in H2.
  set (m1 := shr_m mrs1) in *.
  set (m2 := round_nearest_even m1 (loc_of_shr_record mrs1)) in *.
  destruct H2 as (Hm2 & Hv & HdL & HdU).
  assert (He1' : (-1074 <= e1)%Z) by (unfold fexp64 in He1; lia).
  assert (Hm2' : (0 <= m2 <= 2 ^ 53)%Z) by lia.
  assert (Hn2 : e1 = (-1074)%Z \/ (2 ^ 52 <= m2)%Z) by (destruct Hn1; [now left|right; lia]).
  pose proof (shr_fexp_renorm m2 e1 Hm2' He1' Hn2) as H3.
  destruct (shr_fexp FloatOps.prec FloatOps.emax m2 e1 loc_Exact) as [mrs3 e3].
  destruct H3 as (Hm3 & Hn3 & He3 & Hr).
  set (m3 := shr_m mrs3) in *.
  pose proof (bpow_gt_0 e1) as Hb1. pose proof (bpow_gt_0 e3) as Hb3.
  assert (HL0 : 0 <= IZR m1) by (apply IZR_le; lia).
  destruct (Z_le_gt_dec 972%Z e1) as [Hbig|Hsmall].
  - (* the magnitude is at least 2^1024 *)
    destruct Hn1 as [->|Hn1]; [lia|]. destruct Hn3 as [->|Hn3]; [lia|].
    assert (Hv' : bpow 1024 <= v).
    { apply Rle_trans with (IZR m1 * bpow e1); [|lra].
      apply Rle_trans with (bpow 52 * bpow 972); [rewrite <- bpow_add; apply bpow_le; lia|].
      assert (bpow 52 <= IZR m1) by (rewrite <- IZR_pow2 by lia; apply IZR_le; lia).
      assert (bpow 972 <= bpow e1) by (apply bpow_le; lia).
      pose proof (bpow_gt_0 52). pose proof (bpow_gt_0 972). nra. }
    destruct m3 as [|p|p] eqn:Hp; [lia| |lia].
    replace (e3 <=? FloatOps.emax - FloatOps.prec)%Z with false
      by (symmetry; apply Z.leb_gt; unfold FloatOps.emax, FloatOps.prec; lia).
    split; [reflexivity|]. split; [reflexivity|].
    apply nearest_sgn, nearest_overflow, Hv'.
  - (* the value and its neighbours are within the format's range *)
    assert (HU : (IZR m1 + 1) * bpow e1 <= bpow 1024).
    { apply Rle_trans with (bpow 53 * bpow 971); [|rewrite <- bpow_add; apply bpow_le; lia].
      assert (IZR m1 + 1 <= bpow 53).
      { rewrite <- IZR_pow2 by lia. rewrite <- plus_IZR. apply IZR_le. lia. }
      assert (bpow e1 <= bpow 971) by (apply bpow_le; lia).
      pose proof (bpow_gt_0 53). nra. }
    assert (Hr2 : 0 <= IZR m2 * bpow e1 <= bpow 1024).
    { destruct Hm2 as [->| ->]; [|rewrite plus_IZR]; nra. }
    assert (Hfmt : in_format (IZR m3 * bpow e3)).
    { exists m3, e3. split; [reflexivity|]. split; [lia|]. split; [lia|].
      rewrite Hr, Rabs_pos_eq; lra. }
    assert (Hnear : nearest (sgn sx * v) (sgn sx * (IZR m3 * bpow e3))).
    { apply nearest_sgn. rewrite Hr.
      apply nearest_of_gap with (L := IZR m1 * bpow e1) (U := (IZR m1 + 1) * bpow e1);
        try assumption.
      - rewrite <- Hr. exact Hfmt.
      - intros t Ht. apply format_gap; try assumption. lia. }
    destruct m3 as [|p|p] eqn:Hp; [| |lia].
    + split; [reflexivity|]. split; [reflexivity|].
      cbn [B2R]. rewrite Rmult_0_l, Rmult_0_r in Hnear. exact Hnear.
    + destruct (Z.leb_spec e3 (FloatOps.emax - FloatOps.prec)%Z) as [Hle|Hgt];
        unfold FloatOps.emax, FloatOps.prec in *.
      * split; [|split; [reflexivity|exact Hnear]].
        apply bounded_intro; lia.
      * split; [reflexivity|]. split; [reflexivity|]. cbn [B2R].
        destruct Hn3 as [->|Hn3]; [lia|].
        assert (Heq : IZR (Zpos p) * bpow e3 = bpow 1024); [|rewrite <- Heq; exact Hnear].
        apply Rle_antisym; [rewrite Hr; lra|].
        apply Rle_trans with (bpow 52 * bpow 972); [rewrite <- bpow_add; apply bpow_le; lia|].
        assert (bpow 52 <= IZR (Zpos p)) by (rewrite <- IZR_pow2 by lia; apply IZR_le; lia).
        assert (bpow 972 <= bpow e3) by (apply bpow_le; lia).
        pose proof (bpow_gt_0 52). pose proof (bpow_gt_0 972). nra.
Qed.

(** * The operations of the specification round to a nearest value *)

Lemma in_format_0 : in_format 0.
Proof.
  exists 0%Z, 0%Z. pose proof (bpow_gt_0 1024).
  repeat split; try lia; [ring | rewrite Rabs_R0; lra].
Qed.

Lemma in_format_B2R x :
  valid_binary x = true -> in_format (B2R x).
Proof.
  intros V. destruct x as [s|s| |s m e]; cbn [B2R].
  - apply in_format_0.
  - destruct (nearest_sgn s _ _ (nearest_overflow (bpow 1024) (Rle_refl _))) as [H _]. exact H.
  - apply in_format_0.
  - simpl in V. pose proof (finite_pos_range _ _ V) as Hr.
    apply bounded_inv in V as (Hm & He & _).
    assert (in_format (IZR (Zpos m) * bpow e)) as Hf.
    { exists (Zpos m), e. repeat split; try lia. rewrite Rabs_pos_eq; lra. }
    destruct s; unfold sgn.
    + replace (-1 * (IZR (Zpos m) * bpow e)) with (- (IZR (Zpos m) * bpow e)) by ring.
      now apply in_format_opp.
    + now rewrite Rmult_1_l.
Qed.

Lemma nearest_refl v : in_format v -> nearest v v.
Proof.
  intros H. split; [exact H|]. intros t _.
  rewrite Rminus_diag, Rabs_R0. apply Rabs_pos.
Qed.

Lemma sgn_xorb a b : sgn (xorb a b) = sgn a * sgn b.
Proof. destruct a, b; unfold sgn; simpl; ring. Qed.

Lemma Zdigits2_ge m k : (2 ^ k <= m)%Z -> (0 <= k)%Z -> (k < Zdigits2 m)%Z.
Proof.
  intros H Hk. assert (0 < 2 ^ k)%Z by (apply Z.pow_pos_nonneg; lia).
  pose proof (Zdigits2_bounds m ltac:(lia)) as (Hd0 & Hhi & _).
  apply pow2_lt_inv; lia.
Qed.

(** ** Multiplication *)

Lemma SFmul_correct x y :
  valid_binary x = true -> valid_binary y = true ->
  is_finite_SF x = true -> is_finite_SF y = true ->
  let z := SFmul FloatOps.prec FloatOps.emax x y in
  valid_binary z = true /\ not_nan z = true /\ nearest (B2R x * B2R y) (B2R z).
Proof.
  intros Vx Vy Fx Fy.
  destruct x as [sx|sx| |sx mx ex], y as [sy|sy| |sy my ey]; try discriminate;
    cbn [SFmul B2R]; cbv zeta;
    try (split; [reflexivity|]; split; [reflexivity|]; cbn [B2R];
         rewrite ?Rmult_0_l, ?Rmult_0_r; apply nearest_refl, in_format_0).
  simpl in Vx, Vy.
  pose proof (bounded_inv _ _ Vx) as (Hmx & Hex & Hnx).
  pose proof (bounded_inv _ _ Vy) as (Hmy & Hey & Hny).
  assert (Hpre : (ex + ey <= fexp64 (Zdigits2 (Zpos (mx * my)) + (ex + ey)))%Z).
  { unfold fexp64.
    destruct (Z_le_gt_dec (ex + ey)%Z (-1074)%Z) as [|Hgt]; [lia|].
    assert (2 ^ 52 <= Zpos (mx * my))%Z as H52.
    { rewrite Pos2Z.inj_mul.
      assert (1 <= Zpos mx)%Z by lia. assert (1 <= Zpos my)%Z by lia.
      destruct Hnx as [->|Hnx], Hny as [->|Hny]; try lia; nia. }
    apply Zdigits2_ge in H52; lia. }
  pose proof (binary_round_aux_correct (xorb sx sy) (Zpos (mx * my)) (ex + ey) loc_Exact
                (IZR (Zpos (mx * my)) * bpow (ex + ey)) ltac:(lia) eq_refl Hpre) as H.
  cbv zeta in H. destruct H as (V & N & Hn).
  split; [exact V|]. split; [exact N|].
  replace (sgn sx * (IZR (Zpos mx) * bpow ex) * (sgn sy * (IZR (Zpos my) * bpow ey)))
    with (sgn (xorb sx sy) * (IZR (Zpos (mx * my)) * bpow (ex + ey))); [exact Hn|].
  rewrite sgn_xorb, Pos2Z.inj_mul, mult_IZR, bpow_add. ring.
Qed.

(** ** Addition and subtraction *)

Lemma iter_xO m d : Zpos (Pos.iter xO m d) = (Zpos m * 2 ^ Zpos d)%Z.
Proof.
  induction d as [|d IH] using Pos.peano_ind.
  - simpl. lia.
  - rewrite Pos.iter_succ, Pos2Z.inj_xO, IH, Pos2Z.inj_succ, Z.pow_succ_r by lia. ring.
Qed.

Lemma shl_align_spec mx ex e2 :
  let '(m', e') := shl_align mx ex e2 in
  e' = Z.min ex e2 /\ Zpos m' = (Zpos mx * 2 ^ (ex - e'))%Z.
Proof.
  unfold shl_align. destruct (e2 - ex)%Z as [|d|d] eqn:Hd.
  - split; [lia|]. rewrite Z.sub_diag. simpl. lia.
  - split; [lia|]. rewrite Z.sub_diag. simpl. lia.
  - split; [lia|]. rewrite iter_xO. f_equal. f_equal. lia.
Qed.

Lemma Zdigits2_mul_pow2 m k :
  (0 < m)%Z -> (0 <= k)%Z -> Zdigits2 (m * 2 ^ k) = (Zdigits2 m + k)%Z.
Proof.
  intros Hm Hk. assert (0 < 2 ^ k)%Z by (apply Z.pow_pos_nonneg; lia).
  assert (Hz : forall a, (0 < a)%Z -> Zdigits2 a = (Z.log2 a + 1)%Z).
  { intros [|p|p] Ha; try lia. simpl Zdigits2. apply digits2_log2. }
  rewrite !Hz by nia. rewrite Z.log2_mul_pow2 by lia. lia.
Qed.

Lemma binary_round_correct s m e :
  let z := binary_round FloatOps.prec FloatOps.emax s m e in
  valid_binary z = true /\ not_nan z = true /\
  nearest (sgn s * (IZR (Zpos m) * bpow e)) (B2R z).
Proof.
  unfold binary_round. rewrite fexp64_eq.
  pose proof (shl_align_spec m e (fexp64 (Zpos (digits2_pos m) + e))) as H.
  destruct (shl_align m e (fexp64 (Zpos (digits2_pos m) + e))) as [mz ez].
  destruct H as [He Hm].
  assert (Hd : Zdigits2 (Zpos mz) = (Zpos (digits2_pos m) + (e - ez))%Z).
  { rewrite Hm. apply (Zdigits2_mul_pow2 (Zpos m)); lia. }
  assert (Hpre : (ez <= fexp64 (Zdigits2 (Zpos mz) + ez))%Z).
  { rewrite Hd. replace (Zpos (digits2_pos m) + (e - ez) + ez)%Z
      with (Zpos (digits2_pos m) + e)%Z by ring. lia. }
  pose proof (binary_round_aux_correct s (Zpos mz) ez loc_Exact
                (IZR (Zpos mz) * bpow ez) ltac:(lia) eq_refl Hpre) as H.
  cbv zeta in H.
  replace (IZR (Zpos mz) * bpow ez) with (IZR (Zpos m) * bpow e) in H; [exact H|].
  rewrite Hm, mult_IZR, IZR_pow2 by lia.
  replace e with ((e - ez) + ez)%Z at 1 by ring. rewrite bpow_add. ring.
Qed.

Lemma binary_normalize_correct m e sz :
  let z := binary_normalize FloatOps.prec FloatOps.emax m e sz in
  valid_binary z = true /\ not_nan z = true /\ nearest (IZR m * bpow e) (B2R z).
Proof.
  destruct m as [|p|p]; cbn [binary_normalize]; cbv zeta.
  - split; [reflexivity|]. split; [reflexivity|]. cbn [B2R].
    rewrite Rmult_0_l. apply nearest_refl, in_format_0.
  - pose proof (binary_round_correct false p e) as H. cbv zeta in H.
    unfold sgn in H. rewrite Rmult_1_l in H. exact H.
  - pose proof (binary_round_correct true p e) as H. cbv zeta in H.
    unfold sgn in H.
    replace (IZR (Zneg p) * bpow e) with (-1 * (IZR (Zpos p) * bpow e)); [exact H|].
    change (Zneg p) with (- Zpos p)%Z. rewrite opp_IZR. ring.
Qed.

Lemma aligned_value mx ex ez :
  (ez <= ex)%Z ->
  IZR (Zpos (fst (shl_align mx ex ez))) * bpow ez = IZR (Zpos mx) * bpow ex.
Proof.
  intros H. pose proof (shl_align_spec mx ex ez) as Hs.
  destruct (shl_align mx ex ez) as [m' e']. destruct Hs as [He Hm].
  cbn [fst]. rewrite Hm, mult_IZR, IZR_pow2 by lia.
  replace e' with ez by lia.
  replace ex with ((ex - ez) + ez)%Z at 2 by ring. rewrite bpow_add. ring.
Qed.

Lemma IZR_cond_Zopp s m : IZR (cond_Zopp s m) = sgn s * IZR m.
Proof. destruct s; unfold cond_Zopp, sgn; rewrite ?opp_IZR; ring. Qed.

Lemma SFadd_correct x y :
  valid_binary x = true -> valid_binary y = true ->
  is_finite_SF x = true -> is_finite_SF y = true ->
  let z := SFadd FloatOps.prec FloatOps.emax x y in
  valid_binary z = true /\ not_nan z = true /\ nearest (B2R x + B2R y) (B2R z).
Proof.
  intros Vx Vy Fx Fy.
  destruct x as [sx|sx| |sx mx ex], y as [sy|sy| |sy my ey]; try discriminate;
    cbn [SFadd]; cbv zeta.
  - destruct sx, sy; (split; [reflexivity|]; split; [reflexivity|]; cbn [B2R];
      rewrite Rplus_0_l; apply nearest_refl, in_format_0).
  - split; [exact Vy|]. split; [reflexivity|].
    cbn [B2R]. rewrite Rplus_0_l. apply nearest_refl, (in_format_B2R _ Vy).
  - split; [exact Vx|]. split; [reflexivity|].
    cbn [B2R]. rewrite Rplus_0_r. apply nearest_refl, (in_format_B2R _ Vx).
  - pose proof (binary_normalize_correct
      (cond_Zopp sx (Zpos (fst (shl_align mx ex (Z.min ex ey)))) +
       cond_Zopp sy (Zpos (fst (shl_align my ey (Z.min ex ey)))))
      (Z.min ex ey) false) as H.
    cbv zeta in H. destruct H as (V & N & Hn).
    split; [exact V|]. split; [exact N|].
    cbn [B2R].
    rewrite plus_IZR, !IZR_cond_Zopp in Hn.
    rewrite <- (aligned_value mx ex (Z.min ex ey)), <- (aligned_value my ey (Z.min ex ey)) by lia.
    replace (sgn sx * (IZR (Zpos (fst (shl_align mx ex (Z.min ex ey)))) * bpow (Z.min ex ey)) +
             sgn sy * (IZR (Zpos (fst (shl_align my ey (Z.min ex ey)))) * bpow (Z.min ex ey)))
      with ((sgn sx * IZR (Zpos (fst (shl_align mx ex (Z.min ex ey)))) +
             sgn sy * IZR (Zpos (fst (shl_align my ey (Z.min ex ey))))) * bpow (Z.min ex ey))
      by ring.
    exact Hn.
Qed.

Lemma SFsub_correct x y :
  valid_binary x = true -> valid_binary y = true ->
  is_finite_SF x = true -> is_finite_SF y = true ->
  let z := SFsub FloatOps.prec FloatOps.emax x y in
  valid_binary z = true /\ not_nan z = true /\ nearest (B2R x - B2R y) (B2R z).
Proof.
  intros Vx Vy Fx Fy.
  destruct x as [sx|sx| |sx mx ex], y as [sy|sy| |sy my ey]; try discriminate;
    cbn [SFsub]; cbv zeta.
  - destruct sx, sy; (split; [reflexivity|]; split; [reflexivity|]; cbn [B2R];
      rewrite Rminus_diag; apply nearest_refl, in_format_0).
  - split; [exact Vy|]. split; [reflexivity|].
    replace (B2R (S754_zero sx) - B2R (S754_finite sy my ey))
      with (B2R (S754_finite (negb sy) my ey))
      by (cbn [B2R]; destruct sy; unfold sgn; simpl; ring).
    apply nearest_refl, in_format_B2R. exact Vy.
  - split; [exact Vx|]. split; [reflexivity|].
    cbn [B2R]. rewrite Rminus_0_r. apply nearest_refl, (in_format_B2R _ Vx).
  - pose proof (binary_normalize_correct
      (cond_Zopp sx (Zpos (fst (shl_align mx ex (Z.min ex ey)))) -
       cond_Zopp sy (Zpos (fst (shl_align my ey (Z.min ex ey)))))
      (Z.min ex ey) false) as H.
    cbv zeta in H. destruct H as (V & N & Hn).
    split; [exact V|]. split; [exact N|].
    cbn [B2R].
    rewrite minus_IZR, !IZR_cond_Zopp in Hn.
    rewrite <- (aligned_value mx ex (Z.min ex ey)), <- (aligned_value my ey (Z.min ex ey)) by lia.
    replace (sgn sx * (IZR (Zpos (fst (shl_align mx ex (Z.min ex ey)))) * bpow (Z.min ex ey)) -
             sgn sy * (IZR (Zpos (fst (shl_align my ey (Z.min ex ey)))) * bpow (Z.min ex ey)))
      with ((sgn sx * IZR (Zpos (fst (shl_align mx ex (Z.min ex ey)))) -
             sgn sy * IZR (Zpos (fst (shl_align my ey (Z.min ex ey))))) * bpow (Z.min ex ey))
      by ring.
    exact Hn.
Qed.

(** ** Division *)

Lemma new_location_spec n k :
  (0 < n)%Z -> (0 <= k < n)%Z ->
  new_location n k = if Z.eqb k 0 then loc_Exact else loc_Inexact (Z.compare (2 * k) n).
Proof.
  intros Hn Hk.
  assert (Hodd : Z.even n = false ->
    match Z.compare (2 * k + 1) n with Eq => Lt | Lt => Lt | Gt => Gt end
    = Z.compare (2 * k) n).
  { intros He.
    assert (Ho : Z.odd n = true) by (rewrite <- Z.negb_even, He; reflexivity).
    apply Z.odd_spec in Ho as [j Hj].
    destruct (Z.compare_spec (2 * k + 1)%Z n), (Z.compare_spec (2 * k)%Z n);
      try reflexivity; lia. }
  unfold new_location, new_location_even, new_location_odd.
  destruct k as [|p|p]; [destruct (Z.even n); reflexivity| |lia].
  destruct (Z.even n) eqn:He; [reflexivity|].
  cbv beta. change (Z.eqb (Zpos p) 0) with false. cbv iota.
  f_equal. exact (Hodd eq_refl).
Qed.

Lemma SFdiv_core_correct mx ex my ey :
  let '(q, e', l) := SFdiv_core_binary FloatOps.prec FloatOps.emax (Zpos mx) ex (Zpos my) ey in
  (0 <= q)%Z /\
  inbetween q e' l (IZR (Zpos mx) * bpow ex / (IZR (Zpos my) * bpow ey)) /\
  (e' <= fexp64 (Zdigits2 q + e'))%Z.
Proof.
  unfold SFdiv_core_binary. rewrite fexp64_eq.
  set (d1 := Zdigits2 (Zpos mx)). set (d2 := Zdigits2 (Zpos my)).
  set (e' := Z.min (fexp64 (d1 + ex - (d2 + ey))) (ex - ey)).
  set (s := (ex - ey - e')%Z).
  assert (Hs : (0 <= s)%Z) by (unfold s, e'; lia).
  set (m' := match s with Zpos _ => Z.shiftl (Zpos mx) s | Z0 => Zpos mx | Zneg _ => 0%Z end).
  assert (Hm' : m' = (Zpos mx * 2 ^ s)%Z).
  { unfold m'. destruct s as [|p|p]; [simpl; lia| |lia]. apply Z.shiftl_mul_pow2. lia. }
  pose proof (Z_div_mod m' (Zpos my) ltac:(lia)) as Hdiv.
  destruct (Z.div_eucl m' (Zpos my)) as [q r]. destruct Hdiv as [Hqr Hr].
  assert (H2s : (0 < 2 ^ s)%Z) by (apply Z.pow_pos_nonneg; lia).
  assert (Hq0 : (0 <= q)%Z) by nia.
  split; [exact Hq0|].
  pose proof (bpow_gt_0 e') as Hbe. pose proof (bpow_gt_0 ey) as Hby.
  assert (Hmy : 0 < IZR (Zpos my)) by (apply IZR_lt; lia).
  assert (Hv : IZR (Zpos mx) * bpow ex / (IZR (Zpos my) * bpow ey)
               = (IZR q + IZR r / IZR (Zpos my)) * bpow e').
  { assert (Hx : IZR (Zpos mx) * bpow ex = IZR m' * bpow e' * bpow ey).
    { rewrite Hm', mult_IZR, IZR_pow2 by lia.
      replace ex with (s + e' + ey)%Z at 1 by (unfold s; ring).
      rewrite !bpow_add. ring. }
    rewrite Hx, Hqr, plus_IZR, mult_IZR. field. lra. }
  rewrite Hv. split.
  - rewrite new_location_spec by lia.
    assert (Hr' : 0 <= IZR r) by (apply IZR_le; lia).
    assert (Hr'' : IZR r < IZR (Zpos my)) by (apply IZR_lt; lia).
    destruct (Z.eqb_spec r 0%Z) as [->|Hr0]; cbn [inbetween].
    + unfold Rdiv. rewrite Rmult_0_l, Rplus_0_r. reflexivity.
    + assert (0 < IZR r) by (apply IZR_lt; lia).
      assert (Hfrac : 0 < IZR r / IZR (Zpos my) < 1).
      { split; [apply Rdiv_lt_0_compat; lra|].
        apply Rmult_lt_reg_r with (IZR (Zpos my)); [lra|].
        unfold Rdiv. rewrite Rmult_assoc, Rinv_l by lra. lra. }
      split; [nra|].
      assert (Hcmp : Rcompare (IZR r / IZR (Zpos my)) (/ 2) = Z.compare (2 * r) (Zpos my)).
      { assert (Hrm : IZR r = IZR r / IZR (Zpos my) * IZR (Zpos my)) by (field; lra).
        destruct (Z.compare_spec (2 * r)%Z (Zpos my)) as [He|Hl|Hg].
        - apply Rcompare_Eq. apply (f_equal IZR) in He. rewrite mult_IZR in He. nra.
        - apply Rcompare_Lt. apply IZR_lt in Hl. rewrite mult_IZR in Hl. nra.
        - apply Rcompare_Gt. apply IZR_lt in Hg. rewrite mult_IZR in Hg. nra. }
      rewrite <- Hcmp.
      destruct (Rcompare_spec (IZR r / IZR (Zpos my)) (/ 2));
        [apply Rcompare_Eq | apply Rcompare_Lt | apply Rcompare_Gt]; nra.
  - assert (Hnorm : (e' <= -1074)%Z \/ (2 ^ 52 <= q)%Z).
    { destruct (Z_le_gt_dec e' (-1074)%Z) as [|Hgt]; [now left|right].
      assert (Hs' : (d2 - d1 + 53 <= s)%Z) by (unfold s, e', fexp64 in *; lia).
      pose proof (digits2_bounds mx) as [Hlo1 _]. pose proof (digits2_bounds my) as [_ Hhi2].
      fold (Zdigits2 (Zpos mx)) in Hlo1. fold (Zdigits2 (Zpos my)) in Hhi2.
      fold d1 in Hlo1. fold d2 in Hhi2.
      assert (Hd1 : (1 <= d1)%Z) by (unfold d1; simpl; lia).
      assert (Hd2 : (1 <= d2)%Z) by (unfold d2; simpl; lia).
      assert (Hbig : (2 ^ d2 * 2 ^ 52 <= m')%Z).
      { rewrite Hm'. rewrite <- Z.pow_add_r by lia.
        apply Z.le_trans with (2 ^ (d1 - 1) * 2 ^ s)%Z; [|nia].
        rewrite <- Z.pow_add_r by lia. apply Z.pow_le_mono_r; lia. }
      assert (Zpos my * 2 ^ 52 <= m')%Z by nia.
      nia. }
    unfold fexp64. destruct Hnorm as [|Hq52]; [lia|].
    apply Zdigits2_ge in Hq52; lia.
Qed.

Lemma SFdiv_correct x y :
  valid_binary x = true -> valid_binary y = true ->
  is_finite_SF x = true -> is_finite_SF y = true -> B2R y <> 0 ->
  let z := SFdiv FloatOps.prec FloatOps.emax x y in
  valid_binary z = true /\ not_nan z = true /\ nearest (B2R x / B2R y) (B2R z).
Proof.
  intros Vx Vy Fx Fy Hy0.
  destruct x as [sx|sx| |sx mx ex], y as [sy|sy| |sy my ey]; try discriminate;
    cbn [B2R] in Hy0; try (exfalso; apply Hy0; reflexivity); cbn [SFdiv]; cbv zeta.
  - split; [reflexivity|]. split; [reflexivity|]. cbn [B2R].
    unfold Rdiv. rewrite Rmult_0_l. apply nearest_refl, in_format_0.
  - pose proof (SFdiv_core_correct mx ex my ey) as H.
    destruct (SFdiv_core_binary FloatOps.prec FloatOps.emax (Zpos mx) ex (Zpos my) ey)
      as [[q e'] l].
    destruct H as (Hq & Hin & Hpre).
    pose proof (binary_round_aux_correct (xorb sx sy) q e' l _ Hq Hin Hpre) as H.
    cbv zeta in H. destruct H as (V & N & Hn).
    split; [exact V|]. split; [exact N|]. cbn [B2R].
    replace (sgn sx * (IZR (Zpos mx) * bpow ex) / (sgn sy * (IZR (Zpos my) * bpow ey)))
      with (sgn (xorb sx sy) * (IZR (Zpos mx) * bpow ex / (IZR (Zpos my) * bpow ey)));
      [exact Hn|].
    pose proof (bpow_gt_0 ey). assert (0 < IZR (Zpos my)) by (apply IZR_lt; lia).
    rewrite sgn_xorb. destruct sx, sy; unfold sgn; field; nra.
Qed.

(** ** Values that denote the same real *)

Lemma SF_eq_cases x y :
  valid_binary x = true -> valid_binary y = true ->
  is_finite_SF x = true -> is_finite_SF y = true ->
  B2R x = B2R y ->
  x = y \/ (exists s s', x = S754_zero s /\ y = S754_zero s').
Proof.
  intros Vx Vy Fx Fy H.
  assert (Nx : not_nan x = true) by (destruct x; try discriminate; reflexivity).
  assert (Ny : not_nan y = true) by (destruct y; try discriminate; reflexivity).
  pose proof (SFcompare_B2R x y Vx Vy Nx Ny) as Hc.
  rewrite (Rcompare_Eq _ _ H) in Hc.
  destruct x as [sx|sx| |sx mx ex], y as [sy|sy| |sy my ey]; try discriminate.
  - right. eauto.
  - exfalso. cbn in Hc. destruct sy; discriminate.
  - exfalso. cbn in Hc. destruct sx; discriminate.
  - left. cbn in Hc.
    destruct sx, sy; try discriminate;
      destruct (Z.compare_spec ex ey) as [->| |]; try discriminate;
      injection Hc as Hc;
      [apply (f_equal CompOpp) in Hc; rewrite CompOpp_involutive in Hc; cbn in Hc|];
      apply Pos.compare_eq in Hc; subst; reflexivity.
Qed.

Lemma SFmul_congr x x' y y' :
  valid_binary x = true -> valid_binary x' = true ->
  valid_binary y = true -> valid_binary y' = true ->
  is_finite_SF x = true -> is_finite_SF x' = true ->
  is_finite_SF y = true -> is_finite_SF y' = true ->
  B2R x = B2R x' -> B2R y = B2R y' ->
  B2R (SFmul FloatOps.prec FloatOps.emax x y) = B2R (SFmul FloatOps.prec FloatOps.emax x' y').
Proof.
  intros Vx Vx' Vy Vy' Fx Fx' Fy Fy' Hx Hy.
  destruct (SF_eq_cases x x' Vx Vx' Fx Fx' Hx) as [->|(s1 & s1' & -> & ->)],
           (SF_eq_cases y y' Vy Vy' Fy Fy' Hy) as [->|(s2 & s2' & -> & ->)];
    try reflexivity.
  - destruct x' as [| | |]; try discriminate; reflexivity.
  - destruct y' as [| | |]; try discriminate; reflexivity.
Qed.

Lemma SFadd_congr x x' y y' :
  valid_binary x = true -> valid_binary x' = true ->
  valid_binary y = true -> valid_binary y' = true ->
  is_finite_SF x = true -> is_finite_SF x' = true ->
  is_finite_SF y = true -> is_finite_SF y' = true ->
  B2R x = B2R x' -> B2R y = B2R y' ->
  B2R (SFadd FloatOps.prec FloatOps.emax x y) = B2R (SFadd FloatOps.prec FloatOps.emax x' y').
Proof.
  intros Vx Vx' Vy Vy' Fx Fx' Fy Fy' Hx Hy.
  destruct (SF_eq_cases x x' Vx Vx' Fx Fx' Hx) as [->|(s1 & s1' & -> & ->)],
           (SF_eq_cases y y' Vy Vy' Fy Fy' Hy) as [->|(s2 & s2' & -> & ->)];
    try reflexivity.
  - destruct x' as [[]| | |]; try discriminate; destruct s2, s2'; reflexivity.
  - destruct y' as [[]| | |]; try discriminate; destruct s1, s1'; reflexivity.
  - destruct s1, s1', s2, s2'; reflexivity.
Qed.

Lemma SFsub_congr x x' y y' :
  valid_binary x = true -> valid_binary x' = true ->
  valid_binary y = true -> valid_binary y' = true ->
  is_finite_SF x = true -> is_finite_SF x' = true ->
  is_finite_SF y = true -> is_finite_SF y' = true ->
  B2R x = B2R x' -> B2R y = B2R y' ->
  B2R (SFsub FloatOps.prec FloatOps.emax x y) = B2R (SFsub FloatOps.prec FloatOps.emax x' y').
Proof.
  intros Vx Vx' Vy Vy' Fx Fx' Fy Fy' Hx Hy.
  destruct (SF_eq_cases x x' Vx Vx' Fx Fx' Hx) as [->|(s1 & s1' & -> & ->)],
           (SF_eq_cases y y' Vy Vy' Fy Fy' Hy) as [->|(s2 & s2' & -> & ->)];
    try reflexivity.
  - destruct x' as [[]| | |]; try discriminate; destruct s2, s2'; reflexivity.
  - destruct y' as [[]| | |]; try discriminate; destruct s1, s1'; reflexivity.
  - destruct s1, s1', s2, s2'; reflexivity.
Qed.

Lemma SFdiv_congr x x' y :
  valid_binary x = true -> valid_binary x' = true ->
  is_finite_SF x = true -> is_finite_SF x' = true ->
  is_finite_SF y = true -> B2R y <> 0 ->
  B2R x = B2R x' ->
  B2R (SFdiv FloatOps.prec FloatOps.emax x y) = B2R (SFdiv FloatOps.prec FloatOps.emax x' y).
Proof.
  intros Vx Vx' Fx Fx' Fy Hy0 Hx.
  destruct (SF_eq_cases x x' Vx Vx' Fx Fx' Hx) as [->|(s1 & s1' & -> & ->)];
    try reflexivity.
  destruct y as [| | |]; try discriminate; cbn in Hy0; try lra; reflexivity.
Qed.

(** * Primitive floats *)

Lemma FR_format x : in_format (FR x).
Proof. apply in_format_B2R, Prim2SF_valid. Qed.

Lemma is_nan_Prim2SF x : PrimFloat.is_nan x = negb (not_nan (Prim2SF x)).
Proof.
  unfold PrimFloat.is_nan. rewrite FloatAxioms.eqb_spec. unfold SFeqb.
  destruct (not_nan (Prim2SF x)) eqn:N.
  - rewrite (SFcompare_B2R _ _ (Prim2SF_valid x) (Prim2SF_valid x) N N).
    rewrite Rcompare_Eq by reflexivity. reflexivity.
  - destruct (Prim2SF x); try discriminate. reflexivity.
Qed.

Lemma not_nan_Prim2SF x : PrimFloat.is_nan x = false -> not_nan (Prim2SF x) = true.
Proof. rewrite is_nan_Prim2SF. now destruct (not_nan (Prim2SF x)). Qed.

Lemma finite_not_nan x : finite x -> PrimFloat.is_nan x = false.
Proof.
  unfold finite. rewrite is_nan_Prim2SF. destruct (Prim2SF x); try discriminate; reflexivity.
Qed.

Lemma finite_bound x : finite x -> Rabs (FR x) < bpow 1024.
Proof.
  unfold finite, FR. pose proof (Prim2SF_valid x) as V. pose proof (bpow_gt_0 1024).
  destruct (Prim2SF x) as [s|s| |s m e]; try discriminate; intros _; cbn [B2R].
  - rewrite Rabs_R0. lra.
  - simpl in V. pose proof (finite_pos_range _ _ V).
    destruct s; unfold sgn.
    + rewrite Rabs_left1; lra.
    + rewrite Rabs_pos_eq; lra.
Qed.

Lemma finite_intro x :
  PrimFloat.is_nan x = false -> Rabs (FR x) < bpow 1024 -> finite x.
Proof.
  rewrite is_nan_Prim2SF. unfold finite, FR. pose proof (bpow_gt_0 1024).
  destruct (Prim2SF x) as [s|s| |s m e]; try discriminate; try reflexivity.
  intros _. cbn [B2R]. destruct s; unfold sgn.
  - rewrite Rabs_left1; lra.
  - rewrite Rabs_pos_eq; lra.
Qed.

Lemma finite_between x lo hi :
  PrimFloat.is_nan x = false -> finite lo -> finite hi ->
  FR lo <= FR x <= FR hi -> finite x.
Proof.
  intros N Hlo Hhi H. apply finite_intro; [exact N|].
  apply finite_bound in Hlo, Hhi. revert Hlo Hhi. unfold Rabs.
  repeat destruct Rcase_abs; lra.
Qed.

(** ** Comparisons *)

Lemma compare_FR x y :
  PrimFloat.is_nan x = false -> PrimFloat.is_nan y = false ->
  SFcompare (Prim2SF x) (Prim2SF y) = Some (Rcompare (FR x) (FR y)).
Proof.
  intros Nx Ny. apply SFcompare_B2R; auto using Prim2SF_valid, not_nan_Prim2SF.
Qed.

Lemma ltb_FR x y :
  PrimFloat.is_nan x = false -> PrimFloat.is_nan y = false ->
  PrimFloat.ltb x y = true <-> FR x < FR y.
Proof.
  intros Nx Ny. rewrite FloatAxioms.ltb_spec. unfold SFltb. rewrite (compare_FR x y Nx Ny).
  destruct (Rcompare_spec (FR x) (FR y)); split; intros; try discriminate; try reflexivity; lra.
Qed.

Lemma leb_FR x y :
  PrimFloat.is_nan x = false -> PrimFloat.is_nan y = false ->
  PrimFloat.leb x y = true <-> FR x <= FR y.
Proof.
  intros Nx Ny. rewrite FloatAxioms.leb_spec. unfold SFleb. rewrite (compare_FR x y Nx Ny).
  destruct (Rcompare_spec (FR x) (FR y)); split; intros; try discriminate; try reflexivity; lra.
Qed.

Lemma eqb_FR x y :
  PrimFloat.is_nan x = false -> PrimFloat.is_nan y = false ->
  PrimFloat.eqb x y = true <-> FR x = FR y.
Proof.
  intros Nx Ny. rewrite FloatAxioms.eqb_spec. unfold SFeqb. rewrite (compare_FR x y Nx Ny).
  destruct (Rcompare_spec (FR x) (FR y)); split; intros; try discriminate; try reflexivity; lra.
Qed.

Lemma ltb_false_FR x y :
  PrimFloat.is_nan x = false -> PrimFloat.is_nan y = false ->
  PrimFloat.ltb x y = false <-> FR y <= FR x.
Proof.
  intros Nx Ny. pose proof (ltb_FR x y Nx Ny) as H.
  destruct (PrimFloat.ltb x y); split; intros; try discriminate; try reflexivity.
  - assert (FR x < FR y) by (now apply H). lra.
  - destruct (Rlt_le_dec (FR x) (FR y)) as [Hlt|]; [|assumption].
    apply H in Hlt. discriminate.
Qed.

Lemma leb_false_FR x y :
  PrimFloat.is_nan x = false -> PrimFloat.is_nan y = false ->
  PrimFloat.leb x y = false <-> FR y < FR x.
Proof.
  intros Nx Ny. pose proof (leb_FR x y Nx Ny) as H.
  destruct (PrimFloat.leb x y); split; intros; try discriminate; try reflexivity.
  - assert (FR x <= FR y) by (now apply H). lra.
  - destruct (Rle_lt_dec (FR x) (FR y)) as [Hle|]; [|assumption].
    apply H in Hle. discriminate.
Qed.

(** A comparison with [NaN] is false. *)
Lemma ltb_nan_l x y : PrimFloat.is_nan x = true -> PrimFloat.ltb x y = false.
Proof.
  rewrite is_nan_Prim2SF, FloatAxioms.ltb_spec. unfold SFltb.
  destruct (Prim2SF x); try discriminate. reflexivity.
Qed.

Lemma leb_nan_r x y : PrimFloat.is_nan y = true -> PrimFloat.leb x y = false.
Proof.
  rewrite is_nan_Prim2SF, FloatAxioms.leb_spec. unfold SFleb.
  destruct (Prim2SF y); try discriminate. destruct (Prim2SF x); reflexivity.
Qed.

(** ** The four operations on finite values *)

Lemma mul_nearest x y :
  finite x -> finite y ->
  PrimFloat.is_nan (x * y) = false /\ nearest (FR x * FR y) (FR (x * y)).
Proof.
  intros Fx Fy. unfold FR. rewrite is_nan_Prim2SF, mul_spec.
  destruct (SFmul_correct _ _ (Prim2SF_valid x) (Prim2SF_valid y) Fx Fy) as (_ & N & H).
  unfold SF64mul. rewrite N. split; [reflexivity|exact H].
Qed.

Lemma add_nearest x y :
  finite x -> finite y ->
  PrimFloat.is_nan (x + y) = false /\ nearest (FR x + FR y) (FR (x + y)).
Proof.
  intros Fx Fy. unfold FR. rewrite is_nan_Prim2SF, add_spec.
  destruct (SFadd_correct _ _ (Prim2SF_valid x) (Prim2SF_valid y) Fx Fy) as (_ & N & H).
  unfold SF64add. rewrite N. split; [reflexivity|exact H].
Qed.

Lemma sub_nearest x y :
  finite x -> finite y ->
  PrimFloat.is_nan (x - y) = false /\ nearest (FR x - FR y) (FR (x - y)).
Proof.
  intros Fx Fy. unfold FR. rewrite is_nan_Prim2SF, sub_spec.
  destruct (SFsub_correct _ _ (Prim2SF_valid x) (Prim2SF_valid y) Fx Fy) as (_ & N & H).
  unfold SF64sub. rewrite N. split; [reflexivity|exact H].
Qed.

Lemma div_nearest x y :
  finite x -> finite y -> FR y <> 0 ->
  PrimFloat.is_nan (x / y) = false /\ nearest (FR x / FR y) (FR (x / y)).
Proof.
  intros Fx Fy Hy. unfold FR. rewrite is_nan_Prim2SF, div_spec.
  destruct (SFdiv_correct _ _ (Prim2SF_valid x) (Prim2SF_valid y) Fx Fy Hy) as (_ & N & H).
  unfold SF64div. rewrite N. split; [reflexivity|exact H].
Qed.

(** ** Congruence: the value of a result depends on the values of the operands *)

Lemma mul_congr a a' b b' :
  finite a -> finite a' -> finite b -> finite b' ->
  FR a = FR a' -> FR b = FR b' -> FR (a * b) = FR (a' * b').
Proof.
  intros. unfold FR. rewrite !mul_spec. apply SFmul_congr; auto using Prim2SF_valid.
Qed.

Lemma add_congr a a' b b' :
  finite a -> finite a' -> finite b -> finite b' ->
  FR a = FR a' -> FR b = FR b' -> FR (a + b) = FR (a' + b').
Proof.
  intros. unfold FR. rewrite !add_spec. apply SFadd_congr; auto using Prim2SF_valid.
Qed.

Lemma sub_congr a a' b b' :
  finite a -> finite a' -> finite b -> finite b' ->
  FR a = FR a' -> FR b = FR b' -> FR (a - b) = FR (a' - b').
Proof.
  intros. unfold FR. rewrite !sub_spec. apply SFsub_congr; auto using Prim2SF_valid.
Qed.

Lemma div_congr a a' b :
  finite a -> finite a' -> finite b -> FR b <> 0 ->
  FR a = FR a' -> FR (a / b) = FR (a' / b).
Proof.
  intros. unfold FR. rewrite !div_spec. apply SFdiv_congr; auto using Prim2SF_valid.
Qed.

(** ** Monotonicity of the rounded operations *)

Lemma nearest_mono_le v1 r1 v2 r2 :
  nearest v1 r1 -> nearest v2 r2 -> v1 <= v2 -> (v1 = v2 -> r1 = r2) -> r1 <= r2.
Proof.
  intros N1 N2 [Hlt|Heq] He.
  - eapply nearest_mono; eassumption.
  - rewrite (He Heq). apply Rle_refl.
Qed.

Lemma add_mono a a' b b' :
  finite a -> finite a' -> finite b -> finite b' ->
  FR a <= FR a' -> FR b <= FR b' -> FR (a + b) <= FR (a' + b').
Proof.
  intros Fa Fa' Fb Fb' Ha Hb.
  destruct (add_nearest a b Fa Fb) as [_ N1], (add_nearest a' b' Fa' Fb') as [_ N2].
  apply (nearest_mono_le _ _ _ _ N1 N2); [lra|].
  intros He. apply add_congr; auto; lra.
Qed.

Lemma sub_mono a a' b b' :
  finite a -> finite a' -> finite b -> finite b' ->
  FR a <= FR a' -> FR b' <= FR b -> FR (a - b) <= FR (a' - b').
Proof.
  intros Fa Fa' Fb Fb' Ha Hb.
  destruct (sub_nearest a b Fa Fb) as [_ N1], (sub_nearest a' b' Fa' Fb') as [_ N2].
  apply (nearest_mono_le _ _ _ _ N1 N2); [lra|].
  intros He. apply sub_congr; auto; lra.
Qed.

Lemma div_mono a a' b :
  finite a -> finite a' -> finite b -> 0 < FR b ->
  FR a <= FR a' -> FR (a / b) <= FR (a' / b).
Proof.
  intros Fa Fa' Fb Hb Ha.
  destruct (div_nearest a b Fa Fb ltac:(lra)) as [_ N1],
           (div_nearest a' b Fa' Fb ltac:(lra)) as [_ N2].
  assert (Hi : 0 < / FR b) by (apply Rinv_0_lt_compat; exact Hb).
  apply (nearest_mono_le _ _ _ _ N1 N2); unfold Rdiv; [nra|].
  intros He. apply div_congr; auto; [lra|]. nra.
Qed.

Lemma mul_mono a a' b b' :
  finite a -> finite a' -> finite b -> finite b' ->
  0 <= FR a <= FR a' -> 0 <= FR b <= FR b' -> FR (a * b) <= FR (a' * b').
Proof.
  intros Fa Fa' Fb Fb' Ha Hb.
  destruct (mul_nearest a b Fa Fb) as [_ N1], (mul_nearest a' b' Fa' Fb') as [_ N2].
  apply (nearest_mono_le _ _ _ _ N1 N2); [nra|].
  intros He.
  destruct (Req_dec (FR a) (FR a')) as [Ea|Ea], (Req_dec (FR b) (FR b')) as [Eb|Eb];
    try (apply mul_congr; assumption).
  - assert (Hz : FR a = 0) by nra.
    assert (Hz' : FR a' * FR b' = 0) by (rewrite <- He, Hz; ring).
    rewrite Hz, Rmult_0_l in N1. rewrite Hz' in N2.
    rewrite (nearest_exact _ _ N1 in_format_0), (nearest_exact _ _ N2 in_format_0). reflexivity.
  - assert (Hz : FR b = 0) by nra.
    assert (Hz' : FR a' * FR b' = 0) by (rewrite <- He, Hz; ring).
    rewrite Hz, Rmult_0_r in N1. rewrite Hz' in N2.
    rewrite (nearest_exact _ _ N1 in_format_0), (nearest_exact _ _ N2 in_format_0). reflexivity.
  - assert (Hz : FR a * FR b = 0) by nra.
    assert (Hz' : FR a' * FR b' = 0) by (rewrite <- He; exact Hz).
    rewrite Hz in N1. rewrite Hz' in N2.
    rewrite (nearest_exact _ _ N1 in_format_0), (nearest_exact _ _ N2 in_format_0). reflexivity.
Qed.

(** Multiplying by a fixed factor that is at most zero reverses the order. *)
Lemma mul_antitone c b b' :
  finite c -> finite b -> finite b' ->
  FR c <= 0 -> FR b <= FR b' -> FR (c * b') <= FR (c * b).
Proof.
  intros Fc Fb Fb' Hc Hb.
  destruct (mul_nearest c b' Fc Fb') as [_ N1], (mul_nearest c b Fc Fb) as [_ N2].
  apply (nearest_mono_le _ _ _ _ N1 N2); [nra|].
  intros He.
  destruct (Req_dec (FR b) (FR b')) as [Eb|Eb]; [apply mul_congr; auto|].
  assert (Hz : FR c = 0) by nra.
  rewrite Hz, Rmult_0_l in N1, N2.
  rewrite (nearest_exact _ _ N1 in_format_0), (nearest_exact _ _ N2 in_format_0). reflexivity.
Qed.

(** ** Bounds of a rounded result by values of the format *)

Lemma nearest_between v r lo hi :
  nearest v r -> in_format lo -> in_format hi -> lo <= v <= hi -> lo <= r <= hi.
Proof.
  intros N Hlo Hhi [H1 H2]. split.
  - eapply nearest_ge; eassumption.
  - eapply nearest_le; eassumption.
Qed.

(** * The arithmetic of [update] *)

(** ** The constants of [update] *)

Lemma Prim2SF_zero : Prim2SF 0%float = S754_zero false.
Proof. reflexivity. Qed.

Lemma Prim2SF_half : Prim2SF 0.5%float = S754_finite false 4503599627370496 (-53).
Proof. reflexivity. Qed.

Lemma Prim2SF_one : Prim2SF 1%float = S754_finite false 4503599627370496 (-52).
Proof. reflexivity. Qed.

Lemma Prim2SF_two : Prim2SF 2%float = S754_finite false 4503599627370496 (-51).
Proof. reflexivity. Qed.

Lemma Prim2SF_neg_two : Prim2SF (-2)%float = S754_finite true 4503599627370496 (-51).
Proof. reflexivity. Qed.

Lemma IZR_2_52 : IZR 4503599627370496 = bpow 52.
Proof. change 4503599627370496%Z with (2 ^ 52)%Z. apply IZR_pow2. lia. Qed.

Lemma bpow_m1 : bpow (-1) = / 2.
Proof. unfold bpow. simpl. lra. Qed.

Lemma FR_zero : FR 0%float = 0.
Proof. reflexivity. Qed.

Lemma FR_half : FR 0.5%float = / 2.
Proof.
  unfold FR. rewrite Prim2SF_half. cbn [B2R sgn].
  rewrite IZR_2_52, <- bpow_add. change (52 + -53)%Z with (-1)%Z. rewrite bpow_m1. ring.
Qed.

Lemma FR_one : FR 1%float = 1.
Proof.
  unfold FR. rewrite Prim2SF_one. cbn [B2R sgn].
  rewrite IZR_2_52, <- bpow_add. change (52 + -52)%Z with 0%Z. rewrite bpow_0. ring.
Qed.

Lemma FR_two : FR 2%float = 2.
Proof.
  unfold FR. rewrite Prim2SF_two. cbn [B2R sgn].
  rewrite IZR_2_52, <- bpow_add. change (52 + -51)%Z with 1%Z. rewrite bpow_1. ring.
Qed.

Lemma FR_neg_two : FR (-2)%float = -2.
Proof.
  unfold FR. rewrite Prim2SF_neg_two. cbn [B2R sgn].
  rewrite IZR_2_52, <- bpow_add. change (52 + -51)%Z with 1%Z. rewrite bpow_1. ring.
Qed.

Lemma finite_zero : finite 0%float. Proof. reflexivity. Qed.
Lemma finite_half : finite 0.5%float. Proof. reflexivity. Qed.
Lemma finite_one : finite 1%float. Proof. reflexivity. Qed.
Lemma finite_two : finite 2%float. Proof. reflexivity. Qed.
Lemma finite_neg_two : finite (-2)%float. Proof. reflexivity. Qed.

Lemma in_format_1 : in_format 1.
Proof. rewrite <- FR_one. apply FR_format. Qed.

Lemma in_format_half : in_format (/ 2).
Proof. rewrite <- FR_half. apply FR_format. Qed.

Lemma in_format_2 : in_format 2.
Proof. rewrite <- FR_two. apply FR_format. Qed.

(** ** [Math.min] *)

Lemma min_FR a b :
  PrimFloat.is_nan a = false -> PrimFloat.is_nan b = false ->
  PrimFloat.is_nan (Math.min a b) = false /\ FR (Math.min a b) = Rmin (FR a) (FR b).
Proof.
  intros Na Nb. unfold Math.min. rewrite Na, Nb. cbn [orb].
  destruct (PrimFloat.ltb a b) eqn:Hab.
  - apply ltb_FR in Hab; auto. split; [exact Na|]. rewrite Rmin_left; lra.
  - apply ltb_false_FR in Hab; auto.
    destruct (PrimFloat.ltb b a) eqn:Hba.
    + split; [exact Nb|]. rewrite Rmin_right; lra.
    + apply ltb_false_FR in Hba; auto.
      destruct (get_sign a); split; auto; [rewrite Rmin_left | rewrite Rmin_right]; lra.
Qed.

Lemma SF_eq_nonzero x y :
  valid_binary x = true -> valid_binary y = true ->
  not_nan x = true -> not_nan y = true ->
  B2R x = B2R y -> B2R x <> 0 -> x = y.
Proof.
  intros Vx Vy Nx Ny H H0.
  pose proof (SFcompare_B2R x y Vx Vy Nx Ny) as Hc.
  rewrite (Rcompare_Eq _ _ H) in Hc.
  destruct x as [sx|sx| |sx mx ex], y as [sy|sy| |sy my ey]; try discriminate;
    cbn in Hc; cbn [B2R] in H0; try lra;
    try (destruct sx; discriminate); try (destruct sy; discriminate).
  - destruct sx, sy; try discriminate; reflexivity.
  - destruct sx, sy; try discriminate;
      destruct (Z.compare_spec ex ey) as [->| |]; try discriminate;
      injection Hc as Hc;
      [apply (f_equal CompOpp) in Hc; rewrite CompOpp_involutive in Hc; cbn in Hc|];
      apply Pos.compare_eq in Hc; subst; reflexivity.
Qed.

(** Two values that are not [NaN] and denote the same real other than zero
    are the same value. *)
Lemma FR_inj x y :
  PrimFloat.is_nan x = false -> PrimFloat.is_nan y = false ->
  FR x = FR y -> FR x <> 0 -> x = y.
Proof.
  intros Nx Ny H H0. apply Prim2SF_inj.
  apply SF_eq_nonzero; auto using Prim2SF_valid, not_nan_Prim2SF.
Qed.

Lemma bpow_1024_gt_2 : 2 < bpow 1024.
Proof. rewrite <- bpow_1. apply bpow_lt. lia. Qed.

Lemma finite_of_range z :
  PrimFloat.is_nan z = false -> -2 <= FR z <= 2 -> finite z.
Proof.
  intros N H. apply finite_intro; [exact N|].
  pose proof bpow_1024_gt_2. apply Rabs_def1; lra.
Qed.

Lemma in_format_m1 : in_format (-1).
Proof. apply in_format_opp, in_format_1. Qed.

Lemma in_format_m2 : in_format (-2).
Proof. apply in_format_opp, in_format_2. Qed.

Create HintDb b64.

#[export] Hint Resolve in_format_0 in_format_1 in_format_2 in_format_half
  in_format_m1 in_format_m2 FR_format
  finite_zero finite_half finite_one finite_two finite_neg_two : b64.

(** ** Progress: [Math.min(elapsed / duration, 1.0)] *)

Lemma div_by_infinity e d s :
  finite e -> Prim2SF d = S754_infinity s ->
  PrimFloat.is_nan (e / d) = false /\ FR (e / d) = 0.
Proof.
  unfold finite, FR. intros Fe Hd. rewrite is_nan_Prim2SF, div_spec, Hd. unfold SF64div.
  destruct (Prim2SF e) as [se|se| |se me ee]; try discriminate; split; reflexivity.
Qed.

(** Dividing by a positive duration, infinite or not, keeps the order. *)
Lemma quotient_mono e1 e2 d :
  finite e1 -> finite e2 -> (0 <? d)%float = true -> FR e1 <= FR e2 ->
  PrimFloat.is_nan (e1 / d) = false /\ PrimFloat.is_nan (e2 / d) = false /\
  FR (e1 / d) <= FR (e2 / d) /\ (0 <= FR e1 -> 0 <= FR (e1 / d)).
Proof.
  intros F1 F2 Hd He.
  rewrite FloatAxioms.ltb_spec, Prim2SF_zero in Hd. unfold SFltb in Hd.
  destruct (Prim2SF d) as [sd|sd| |sd md ed] eqn:Ed; cbn in Hd; try discriminate;
    destruct sd; try discriminate.
  - destruct (div_by_infinity e1 d _ F1 Ed) as [N1 H1].
    destruct (div_by_infinity e2 d _ F2 Ed) as [N2 H2].
    rewrite H1, H2. repeat split; auto; lra.
  - assert (Fd : finite d) by (unfold finite; now rewrite Ed).
    assert (Hd0 : 0 < FR d).
    { unfold FR. rewrite Ed. cbn [B2R sgn].
      pose proof (Prim2SF_valid d) as V. rewrite Ed in V. simpl in V.
      pose proof (finite_pos_range _ _ V). lra. }
    destruct (div_nearest e1 d F1 Fd ltac:(lra)) as [N1 Hn1].
    destruct (div_nearest e2 d F2 Fd ltac:(lra)) as [N2 _].
    split; [exact N1|]. split; [exact N2|]. split; [now apply div_mono|].
    intros H0. apply (nearest_ge _ _ 0 Hn1); auto with b64.
    apply Rmult_le_pos; [exact H0|]. apply Rlt_le, Rinv_0_lt_compat, Hd0.
Qed.

Lemma progress_range e d :
  finite e -> 0 <= FR e -> (0 <? d)%float = true ->
  finite (progress_of e d) /\ 0 <= FR (progress_of e d) <= 1.
Proof.
  intros Fe He Hd. unfold progress_of.
  destruct (quotient_mono e e d Fe Fe Hd (Rle_refl _)) as (Nq & _ & _ & H0).
  specialize (H0 He).
  destruct (min_FR (e / d) 1 Nq eq_refl) as [Np Hp].
  rewrite FR_one in Hp.
  assert (Hr : 0 <= FR (Math.min (e / d) 1) <= 1).
  { rewrite Hp. split; [apply Rmin_glb; lra | apply Rmin_r]. }
  split; [|exact Hr]. apply finite_of_range; [exact Np|lra].
Qed.

Lemma progress_mono e1 e2 d :
  finite e1 -> finite e2 -> (0 <? d)%float = true -> FR e1 <= FR e2 ->
  FR (progress_of e1 d) <= FR (progress_of e2 d).
Proof.
  intros F1 F2 Hd He. unfold progress_of.
  destruct (quotient_mono e1 e2 d F1 F2 Hd He) as (N1 & N2 & Hq & _).
  destruct (min_FR (e1 / d) 1 N1 eq_refl) as [_ ->].
  destruct (min_FR (e2 / d) 1 N2 eq_refl) as [_ ->].
  now apply Rle_min_compat_r.
Qed.

(** Once the elapsed time has reached the duration the progress is [1]. *)
Lemma progress_done e d :
  finite e -> finite d -> 0 < FR d -> FR d <= FR e ->
  progress_of e d = 1%float.
Proof.
  intros Fe Fd Hd He. unfold progress_of.
  destruct (div_nearest e d Fe Fd ltac:(lra)) as [Nq Hq].
  assert (H1 : 1 <= FR (e / d)).
  { apply (nearest_ge _ _ 1 Hq); auto with b64.
    apply Rmult_le_reg_r with (FR d); [exact Hd|].
    unfold Rdiv. rewrite Rmult_assoc, Rinv_l by lra. lra. }
  unfold Math.min. rewrite Nq. cbn [orb PrimFloat.is_nan].
  change (PrimFloat.is_nan 1) with false. cbv iota.
  assert (Hlt : PrimFloat.ltb (e / d) 1 = false).
  { apply ltb_false_FR; auto. rewrite FR_one. exact H1. }
  rewrite Hlt.
  destruct (PrimFloat.ltb 1 (e / d)) eqn:Hgt; [reflexivity|].
  apply ltb_false_FR in Hgt; auto. rewrite FR_one in Hgt.
  assert (Heq : (e / d)%float = 1%float).
  { apply FR_inj; auto; rewrite ?FR_one; lra. }
  rewrite Heq. reflexivity.
Qed.

(** ** Results within a small range are finite *)

Lemma mul_range x y lo hi :
  finite x -> finite y -> in_format lo -> in_format hi ->
  lo <= FR x * FR y <= hi -> -2 <= lo -> hi <= 2 ->
  finite (x * y) /\ lo <= FR (x * y) <= hi.
Proof.
  intros Fx Fy Hlo Hhi H ? ?. destruct (mul_nearest x y Fx Fy) as [N Hn].
  pose proof (nearest_between _ _ lo hi Hn Hlo Hhi H) as Hr.
  split; [apply finite_of_range; [exact N|lra] | exact Hr].
Qed.

Lemma add_range x y lo hi :
  finite x -> finite y -> in_format lo -> in_format hi ->
  lo <= FR x + FR y <= hi -> -2 <= lo -> hi <= 2 ->
  finite (x + y) /\ lo <= FR (x + y) <= hi.
Proof.
  intros Fx Fy Hlo Hhi H ? ?. destruct (add_nearest x y Fx Fy) as [N Hn].
  pose proof (nearest_between _ _ lo hi Hn Hlo Hhi H) as Hr.
  split; [apply finite_of_range; [exact N|lra] | exact Hr].
Qed.

Lemma sub_range x y lo hi :
  finite x -> finite y -> in_format lo -> in_format hi ->
  lo <= FR x - FR y <= hi -> -2 <= lo -> hi <= 2 ->
  finite (x - y) /\ lo <= FR (x - y) <= hi.
Proof.
  intros Fx Fy Hlo Hhi H ? ?. destruct (sub_nearest x y Fx Fy) as [N Hn].
  pose proof (nearest_between _ _ lo hi Hn Hlo Hhi H) as Hr.
  split; [apply finite_of_range; [exact N|lra] | exact Hr].
Qed.

Lemma div_range x y lo hi :
  finite x -> finite y -> FR y <> 0 -> in_format lo -> in_format hi ->
  lo <= FR x / FR y <= hi -> -2 <= lo -> hi <= 2 ->
  finite (x / y) /\ lo <= FR (x / y) <= hi.
Proof.
  intros Fx Fy Hy Hlo Hhi H ? ?. destruct (div_nearest x y Fx Fy Hy) as [N Hn].
  pose proof (nearest_between _ _ lo hi Hn Hlo Hhi H) as Hr.
  split; [apply finite_of_range; [exact N|lra] | exact Hr].
Qed.

(** ** The easing function *)

Lemma ease_below p :
  finite p -> FR p < / 2 -> ease p = ease_in p.
Proof.
  intros Fp H. unfold ease, ease_in.
  replace (PrimFloat.ltb p 0.5) with true; [reflexivity|].
  symmetry. apply ltb_FR; auto using finite_not_nan. now rewrite FR_half.
Qed.

Lemma ease_above p :
  finite p -> / 2 <= FR p -> ease p = ease_out p.
Proof.
  intros Fp H. unfold ease, ease_out.
  replace (PrimFloat.ltb p 0.5) with false; [reflexivity|].
  symmetry. apply ltb_false_FR; auto using finite_not_nan. now rewrite FR_half.
Qed.

Lemma ease_in_range p :
  finite p -> 0 <= FR p <= / 2 ->
  finite (ease_in p) /\ 0 <= FR (ease_in p) <= / 2.
Proof.
  intros Fp Hp. unfold ease_in.
  assert (Ht : finite (2 * p)%float /\ 0 <= FR (2 * p)%float <= 1).
  { apply mul_range; auto with b64; rewrite ?FR_two; lra. }
  destruct Ht as [Ft Ht].
  apply mul_range; auto with b64; nra.
Qed.

Lemma ease_in_mono p1 p2 :
  finite p1 -> finite p2 -> 0 <= FR p1 <= FR p2 -> FR p2 <= / 2 ->
  FR (ease_in p1) <= FR (ease_in p2).
Proof.
  intros F1 F2 H1 H2. unfold ease_in.
  assert (Ht1 : finite (2 * p1)%float /\ 0 <= FR (2 * p1)%float <= 1).
  { apply mul_range; auto with b64; rewrite ?FR_two; lra. }
  assert (Ht2 : finite (2 * p2)%float /\ 0 <= FR (2 * p2)%float <= 1).
  { apply mul_range; auto with b64; rewrite ?FR_two; lra. }
  destruct Ht1 as [Ft1 Ht1], Ht2 as [Ft2 Ht2].
  apply (mul_mono _ _ _ _ Ft1 Ft2 F1 F2); [split; [lra|] | lra].
  apply (mul_mono 2 2 p1 p2); auto with b64; rewrite ?FR_two; lra.
Qed.

Lemma ease_out_parts p :
  finite p -> / 2 <= FR p <= 1 ->
  let u := (-2 * p + 2)%float in
  let w := (u * u)%float in
  let h := (w / 2)%float in
  (finite (-2 * p)%float /\ -2 <= FR (-2 * p)%float <= -1) /\
  (finite u /\ 0 <= FR u <= 1) /\ (finite w /\ 0 <= FR w <= 1) /\
  (finite h /\ 0 <= FR h <= / 2).
Proof.
  intros Fp Hp. cbv zeta.
  assert (Ha : finite (-2 * p)%float /\ -2 <= FR (-2 * p)%float <= -1).
  { apply mul_range; auto with b64; rewrite ?FR_neg_two; lra. }
  destruct Ha as [Fa Ha].
  assert (Hu : finite (-2 * p + 2)%float /\ 0 <= FR (-2 * p + 2)%float <= 1).
  { apply add_range; auto with b64; rewrite ?FR_two; lra. }
  destruct Hu as [Fu Hu].
  assert (Hw : finite ((-2 * p + 2) * (-2 * p + 2))%float /\
               0 <= FR ((-2 * p + 2) * (-2 * p + 2))%float <= 1).
  { apply mul_range; auto with b64; nra. }
  destruct Hw as [Fw Hw].
  assert (Hh : finite ((-2 * p + 2) * (-2 * p + 2) / 2)%float /\
               0 <= FR ((-2 * p + 2) * (-2 * p + 2) / 2)%float <= / 2).
  { apply div_range; auto with b64; rewrite ?FR_two; lra. }
  destruct Hh as [Fh Hh].
  repeat split; auto; lra.
Qed.

Lemma ease_out_range p :
  finite p -> / 2 <= FR p <= 1 ->
  finite (ease_out p) /\ / 2 <= FR (ease_out p) <= 1.
Proof.
  intros Fp Hp. destruct (ease_out_parts p Fp Hp) as (_ & _ & _ & Fh & Hh).
  unfold ease_out. apply sub_range; auto with b64; rewrite ?FR_one; lra.
Qed.

Lemma ease_out_mono p1 p2 :
  finite p1 -> finite p2 -> / 2 <= FR p1 <= FR p2 -> FR p2 <= 1 ->
  FR (ease_out p1) <= FR (ease_out p2).
Proof.
  intros F1 F2 H1 H2.
  destruct (ease_out_parts p1 F1 ltac:(lra)) as ((Fa1 & Ha1) & (Fu1 & Hu1) & (Fw1 & Hw1) & Fh1 & Hh1).
  destruct (ease_out_parts p2 F2 ltac:(lra)) as ((Fa2 & Ha2) & (Fu2 & Hu2) & (Fw2 & Hw2) & Fh2 & Hh2).
  unfold ease_out.
  apply (sub_mono 1 1 _ _ finite_one finite_one Fh1 Fh2); [lra|].
  apply (div_mono _ _ 2 Fw2 Fw1 finite_two); [rewrite FR_two; lra|].
  assert (Hu : FR (-2 * p2 + 2)%float <= FR (-2 * p1 + 2)%float).
  { apply (add_mono _ _ 2 2 Fa2 Fa1 finite_two finite_two); [|lra].
    apply (mul_antitone (-2) p1 p2 finite_neg_two F1 F2); rewrite ?FR_neg_two; lra. }
  apply (mul_mono _ _ _ _ Fu2 Fu1 Fu2 Fu1); lra.
Qed.

Lemma ease_range p :
  finite p -> 0 <= FR p <= 1 ->
  finite (ease p) /\ 0 <= FR (ease p) <= 1.
Proof.
  intros Fp Hp. destruct (Rlt_le_dec (FR p) (/ 2)) as [Hlt|Hge].
  - rewrite (ease_below p Fp Hlt).
    destruct (ease_in_range p Fp ltac:(lra)) as [F H]. split; [exact F|lra].
  - rewrite (ease_above p Fp Hge).
    destruct (ease_out_range p Fp ltac:(lra)) as [F H]. split; [exact F|lra].
Qed.

(** The easing function is monotone on [[0, 1]]. *)
Lemma ease_mono p1 p2 :
  finite p1 -> finite p2 -> 0 <= FR p1 <= FR p2 -> FR p2 <= 1 ->
  FR (ease p1) <= FR (ease p2).
Proof.
  intros F1 F2 H1 H2.
  destruct (Rlt_le_dec (FR p1) (/ 2)) as [Hlt1|Hge1],
           (Rlt_le_dec (FR p2) (/ 2)) as [Hlt2|Hge2].
  - rewrite (ease_below p1 F1 Hlt1), (ease_below p2 F2 Hlt2).
    apply ease_in_mono; auto; lra.
  - rewrite (ease_below p1 F1 Hlt1), (ease_above p2 F2 Hge2).
    destruct (ease_in_range p1 F1 ltac:(lra)) as [_ Ha].
    destruct (ease_out_range p2 F2 ltac:(lra)) as [_ Hb]. lra.
  - lra.
  - rewrite (ease_above p1 F1 Hge1), (ease_above p2 F2 Hge2).
    apply ease_out_mono; auto; lra.
Qed.

Lemma ease_zero p : finite p -> FR p = 0 -> FR (ease p) = 0.
Proof.
  intros Fp Hp. rewrite (ease_below p Fp) by lra.
  destruct (ease_in_range p Fp ltac:(lra)) as [_ [H0 _]].
  unfold ease_in in *.
  assert (Ht : finite (2 * p)%float /\ 0 <= FR (2 * p)%float <= 1).
  { apply mul_range; auto with b64; rewrite ?FR_two; lra. }
  destruct Ht as [Ft Ht].
  destruct (mul_nearest (2 * p) p Ft Fp) as [_ Hn].
  rewrite Hp, Rmult_0_r in Hn.
  apply (nearest_exact _ _ Hn). auto with b64.
Qed.

(** ** The library's [is_finite] test *)

Lemma is_finite_spec x : PrimFloat.is_finite x = is_finite_SF (Prim2SF x).
Proof.
  unfold PrimFloat.is_finite, PrimFloat.is_infinity.
  rewrite is_nan_Prim2SF, FloatAxioms.eqb_spec, abs_spec.
  change (Prim2SF infinity) with (S754_infinity false).
  destruct (Prim2SF x) as [s|s| |s m e]; reflexivity.
Qed.

Lemma is_finite_finite x : PrimFloat.is_finite x = true <-> finite x.
Proof. unfold finite. now rewrite is_finite_spec. Qed.

Lemma sub_finite_inv x y : finite (x - y) -> finite x /\ finite y.
Proof.
  unfold finite. rewrite sub_spec. unfold SF64sub.
  destruct (Prim2SF x) as [sx|sx| |sx mx ex], (Prim2SF y) as [sy|sy| |sy my ey];
    cbn [SFsub is_finite_SF]; try discriminate; auto;
    destruct sx, sy; cbn; try discriminate; auto.
Qed.

(** ** Linear interpolation *)

(** The product of the span and an eased progress in [[0, 1]] stays between
    zero and the span. *)
Lemma span_scaled D E :
  finite D -> finite E -> 0 <= FR E <= 1 ->
  finite (D * E) /\
  (0 <= FR D -> 0 <= FR (D * E) <= FR D) /\ (FR D <= 0 -> FR D <= FR (D * E) <= 0).
Proof.
  intros FD FE HE. destruct (mul_nearest D E FD FE) as [N Hn].
  assert (Hup : 0 <= FR D -> 0 <= FR (D * E) <= FR D).
  { intros HD. apply (nearest_between _ _ 0 (FR D) Hn); auto with b64. nra. }
  assert (Hdn : FR D <= 0 -> FR D <= FR (D * E) <= 0).
  { intros HD. apply (nearest_between _ _ (FR D) 0 Hn); auto with b64. nra. }
  split; [|split; assumption].
  destruct (Rle_lt_dec 0 (FR D)) as [HD|HD].
  - apply (finite_between _ 0 D N finite_zero FD). rewrite FR_zero. auto.
  - apply (finite_between _ D 0 N FD finite_zero). rewrite FR_zero. apply Hdn. lra.
Qed.

Lemma span_sign f t :
  finite (t - f) ->
  (FR f <= FR t -> 0 <= FR (t - f)) /\ (FR t <= FR f -> FR (t - f) <= 0).
Proof.
  intros FD. destruct (sub_finite_inv _ _ FD) as [Ft Ff].
  destruct (sub_nearest t f Ft Ff) as [_ HD]. split; intros H.
  - apply (nearest_ge _ _ 0 HD); auto with b64; lra.
  - apply (nearest_le _ _ 0 HD); auto with b64; lra.
Qed.

Lemma lerp_not_nan f t E :
  finite (t - f) -> finite E -> 0 <= FR E <= 1 ->
  PrimFloat.is_nan (lerp f t E) = false.
Proof.
  intros FD FE HE. unfold lerp.
  destruct (sub_finite_inv _ _ FD) as [Ft Ff].
  destruct (span_scaled _ _ FD FE HE) as [Fx _].
  apply (add_nearest f _ Ff Fx).
Qed.

(** With [from <= to] the interpolated value grows with the eased progress,
    from [from] on. *)
Lemma lerp_up f t E1 E2 :
  finite (t - f) -> FR f <= FR t ->
  finite E1 -> finite E2 -> 0 <= FR E1 <= FR E2 -> FR E2 <= 1 ->
  FR f <= FR (lerp f t E1) <= FR (lerp f t E2).
Proof.
  intros FD Hft F1 F2 HE HE2. unfold lerp.
  destruct (sub_finite_inv _ _ FD) as [Ft Ff].
  destruct (span_sign f t FD) as [HD _]. specialize (HD Hft).
  destruct (span_scaled _ _ FD F1 ltac:(lra)) as (Fx1 & Hx1 & _).
  destruct (span_scaled _ _ FD F2 ltac:(lra)) as (Fx2 & Hx2 & _).
  specialize (Hx1 HD). specialize (Hx2 HD).
  split.
  - destruct (add_nearest f _ Ff Fx1) as [_ Hn].
    apply (nearest_ge _ _ (FR f) Hn); auto with b64. lra.
  - apply add_mono; auto; [lra|]. apply mul_mono; auto; lra.
Qed.

(** With [to <= from] it falls, from [from] on. *)
Lemma lerp_down f t E1 E2 :
  finite (t - f) -> FR t <= FR f ->
  finite E1 -> finite E2 -> 0 <= FR E1 <= FR E2 -> FR E2 <= 1 ->
  FR (lerp f t E2) <= FR (lerp f t E1) <= FR f.
Proof.
  intros FD Hft F1 F2 HE HE2. unfold lerp.
  destruct (sub_finite_inv _ _ FD) as [Ft Ff].
  destruct (span_sign f t FD) as [_ HD]. specialize (HD Hft).
  destruct (span_scaled _ _ FD F1 ltac:(lra)) as (Fx1 & _ & Hx1).
  destruct (span_scaled _ _ FD F2 ltac:(lra)) as (Fx2 & _ & Hx2).
  specialize (Hx1 HD). specialize (Hx2 HD).
  split.
  - apply add_mono; auto; [lra|]. apply mul_antitone; auto; lra.
  - destruct (add_nearest f _ Ff Fx1) as [_ Hn].
    apply (nearest_le _ _ (FR f) Hn); auto with b64. lra.
Qed.

(** At eased progress [1] the interpolation ends at [from + (to - from)]. *)
Lemma mul_one_r x : (x * 1)%float = x.
Proof.
  apply Prim2SF_inj. rewrite mul_spec. unfold SF64mul. rewrite Prim2SF_one.
  pose proof (Prim2SF_valid x) as V.
  destruct (Prim2SF x) as [s|s| |s m e] eqn:Hx; cbn [SFmul]; rewrite ?xorb_false_r;
    try reflexivity.
  assert (Fx : is_finite_SF (S754_finite s m e) = true) by reflexivity.
  assert (F1 : is_finite_SF (S754_finite false 4503599627370496 (-52)) = true) by reflexivity.
  assert (V1 : valid_binary (S754_finite false 4503599627370496 (-52)) = true) by reflexivity.
  destruct (SFmul_correct _ _ V V1 Fx F1) as (Vz & Nz & Hn).
  cbn [SFmul] in Vz, Nz, Hn. rewrite xorb_false_r in Vz, Nz, Hn.
  pose proof FR_one as H1. unfold FR in H1. rewrite Prim2SF_one in H1.
  rewrite H1, Rmult_1_r in Hn.
  symmetry. apply SF_eq_nonzero; auto.
  - symmetry. apply (nearest_exact _ _ Hn). apply in_format_B2R, V.
  - cbn [B2R]. simpl in V. pose proof (finite_pos_range _ _ V).
    destruct s; unfold sgn; lra.
Qed.

(** ** From the comparisons of the code to the order of the reals *)

Lemma ltb_true_inv x y :
  PrimFloat.ltb x y = true ->
  PrimFloat.is_nan x = false /\ PrimFloat.is_nan y = false /\ FR x < FR y.
Proof.
  intros H.
  assert (Nx : PrimFloat.is_nan x = false).
  { destruct (PrimFloat.is_nan x) eqn:N; [|reflexivity].
    rewrite (ltb_nan_l x y N) in H. discriminate. }
  assert (Ny : PrimFloat.is_nan y = false).
  { destruct (PrimFloat.is_nan y) eqn:N; [|reflexivity].
    rewrite FloatAxioms.ltb_spec in H. unfold SFltb in H.
    rewrite is_nan_Prim2SF in N.
    destruct (Prim2SF y); try discriminate. destruct (Prim2SF x); discriminate. }
  split; [exact Nx|]. split; [exact Ny|]. now apply ltb_FR.
Qed.

Lemma leb_true_inv x y :
  PrimFloat.leb x y = true ->
  PrimFloat.is_nan x = false /\ PrimFloat.is_nan y = false /\ FR x <= FR y.
Proof.
  intros H.
  assert (Ny : PrimFloat.is_nan y = false).
  { destruct (PrimFloat.is_nan y) eqn:N; [|reflexivity].
    rewrite (leb_nan_r x y N) in H. discriminate. }
  assert (Nx : PrimFloat.is_nan x = false).
  { destruct (PrimFloat.is_nan x) eqn:N; [|reflexivity].
    rewrite FloatAxioms.leb_spec in H. unfold SFleb in H.
    rewrite is_nan_Prim2SF in N.
    destruct (Prim2SF x); try discriminate. }
  split; [exact Nx|]. split; [exact Ny|]. now apply leb_FR.
Qed.

Lemma leb_intro x y :
  PrimFloat.is_nan x = false -> PrimFloat.is_nan y = false -> FR x <= FR y ->
  PrimFloat.leb x y = true.
Proof. intros Nx Ny H. now apply leb_FR. Qed.

Lemma ltb_leb_false x y : PrimFloat.ltb x y = true -> PrimFloat.leb y x = false.
Proof.
  intros H. apply ltb_true_inv in H as (Nx & Ny & H). now apply leb_false_FR.
Qed.

(** * Properties of [CardAnimator] *)

(** ** Unfolding [update] *)

Lemma update_absent now cardId (s : gmap Z animation) :
  s !! cardId = None -> update now cardId s = (None, s).
Proof. intros H. unfold update. now rewrite H. Qed.

Lemma update_present now cardId (s : gmap Z animation) anim :
  s !! cardId = Some anim ->
  update now cardId s =
    (Some (value_at anim (now - startTime anim)),
     if completes anim now then delete cardId s else s).
Proof. intros H. unfold update. rewrite H. reflexivity. Qed.

Lemma update_deleted now cardId (s : gmap Z animation) :
  update now cardId (delete cardId s) = (None, delete cardId s).
Proof. apply update_absent, lookup_delete_eq. Qed.

Lemma isAnimating_true cardId (s : gmap Z animation) :
  isAnimating cardId s = true <-> is_Some (s !! cardId).
Proof. unfold isAnimating. apply bool_decide_eq_true. Qed.

Lemma isAnimating_false cardId (s : gmap Z animation) :
  isAnimating cardId s = false <-> s !! cardId = None.
Proof.
  unfold isAnimating. rewrite bool_decide_eq_false, <- eq_None_not_Some. reflexivity.
Qed.

(** ** The value of a running entry *)

Section Running.
Variables (anim : animation).
Hypothesis duration_pos : (0 <? duration anim)%float = true.
Hypothesis span_finite : finite (to anim - from anim).

Lemma running_progress e :
  finite e -> 0 <= FR e ->
  let p := progress_of e (duration anim) in
  (finite p /\ 0 <= FR p <= 1) /\ (finite (ease p) /\ 0 <= FR (ease p) <= 1).
Proof.
  intros Fe He. cbv zeta.
  destruct (progress_range e _ Fe He duration_pos) as [Fp Hp].
  split; [split; assumption|]. now apply ease_range.
Qed.

Lemma running_eased_mono e1 e2 :
  finite e1 -> finite e2 -> 0 <= FR e1 <= FR e2 ->
  FR (ease (progress_of e1 (duration anim))) <= FR (ease (progress_of e2 (duration anim))).
Proof.
  intros F1 F2 He.
  destruct (running_progress e1 F1 ltac:(lra)) as [[Fp1 Hp1] _].
  destruct (running_progress e2 F2 ltac:(lra)) as [[Fp2 Hp2] _].
  apply ease_mono; auto; [|lra]. split; [lra|].
  apply progress_mono; auto; lra.
Qed.

Lemma running_not_nan e :
  finite e -> 0 <= FR e -> PrimFloat.is_nan (value_at anim e) = false.
Proof.
  intros Fe He. destruct (running_progress e Fe He) as [_ [FE HE]].
  unfold value_at. now apply lerp_not_nan.
Qed.

Lemma running_up e1 e2 :
  finite e1 -> finite e2 -> 0 <= FR e1 <= FR e2 ->
  FR (from anim) <= FR (to anim) ->
  FR (from anim) <= FR (value_at anim e1) <= FR (value_at anim e2).
Proof.
  intros F1 F2 He Hft.
  destruct (running_progress e1 F1 ltac:(lra)) as [_ [FE1 HE1]].
  destruct (running_progress e2 F2 ltac:(lra)) as [_ [FE2 HE2]].
  unfold value_at. apply lerp_up; auto; [|lra]. split; [lra|].
  now apply running_eased_mono.
Qed.

Lemma running_down e1 e2 :
  finite e1 -> finite e2 -> 0 <= FR e1 <= FR e2 ->
  FR (to anim) <= FR (from anim) ->
  FR (value_at anim e2) <= FR (value_at anim e1) <= FR (from anim).
Proof.
  intros F1 F2 He Hft.
  destruct (running_progress e1 F1 ltac:(lra)) as [_ [FE1 HE1]].
  destruct (running_progress e2 F2 ltac:(lra)) as [_ [FE2 HE2]].
  unfold value_at. apply lerp_down; auto; [|lra]. split; [lra|].
  now apply running_eased_mono.
Qed.

(** The value [update] returns on completion bounds every value. *)
Lemma running_below_stop e :
  finite e -> 0 <= FR e -> FR (from anim) <= FR (to anim) ->
  FR (value_at anim e) <= FR (from anim + (to anim - from anim))%float.
Proof.
  intros Fe He Hft.
  destruct (running_progress e Fe He) as [_ [FE HE]].
  replace (from anim + (to anim - from anim))%float with (lerp (from anim) (to anim) 1)
    by (unfold lerp; now rewrite mul_one_r).
  unfold value_at.
  apply (lerp_up _ _ _ 1%float span_finite Hft FE finite_one); rewrite FR_one; lra.
Qed.

Lemma running_above_stop e :
  finite e -> 0 <= FR e -> FR (to anim) <= FR (from anim) ->
  FR (from anim + (to anim - from anim))%float <= FR (value_at anim e).
Proof.
  intros Fe He Hft.
  destruct (running_progress e Fe He) as [_ [FE HE]].
  replace (from anim + (to anim - from anim))%float with (lerp (from anim) (to anim) 1)
    by (unfold lerp; now rewrite mul_one_r).
  unfold value_at.
  apply (lerp_down _ _ _ 1%float span_finite Hft FE finite_one); rewrite FR_one; lra.
Qed.

Lemma stop_not_nan :
  PrimFloat.is_nan (from anim + (to anim - from anim))%float = false.
Proof.
  destruct (sub_finite_inv _ _ span_finite) as [Ft Ff].
  apply (add_nearest _ _ Ff span_finite).
Qed.
End Running.

(** ** Completion *)

Lemma ease_one : ease 1 = 1%float.
Proof. reflexivity. Qed.

Lemma value_at_done anim e :
  progress_of e (duration anim) = 1%float ->
  value_at anim e = (from anim + (to anim - from anim))%float.
Proof.
  intros H. unfold value_at, lerp. rewrite H, ease_one, mul_one_r. reflexivity.
Qed.

(** An update at an elapsed time that has reached a positive duration
    completes the entry. *)
Lemma update_done now cardId (s : gmap Z animation) anim :
  s !! cardId = Some anim ->
  (0 <? duration anim)%float = true ->
  PrimFloat.is_finite (now - startTime anim) = true ->
  (duration anim <=? now - startTime anim)%float = true ->
  update now cardId s = (Some (from anim + (to anim - from anim))%float, delete cardId s).
Proof.
  intros Hs Hd Fe Hde.
  apply ltb_true_inv in Hd as (_ & Nd & Hd). rewrite FR_zero in Hd.
  apply leb_true_inv in Hde as (_ & _ & Hde).
  apply is_finite_finite in Fe.
  assert (Fd : finite (duration anim)).
  { apply (finite_between _ 0%float (now - startTime anim)%float Nd finite_zero Fe).
    rewrite FR_zero. lra. }
  assert (Hp : progress_of (now - startTime anim) (duration anim) = 1%float)
    by (apply progress_done; auto).
  rewrite (update_present _ _ _ _ Hs). unfold completes.
  rewrite (value_at_done _ _ Hp), Hp. reflexivity.
Qed.

(** ** The first sample: elapsed time zero *)

Lemma progress_start e d :
  (e =? 0)%float = true -> (0 <? d)%float = true ->
  finite (progress_of e d) /\ FR (progress_of e d) = 0.
Proof.
  intros He Hd. unfold progress_of.
  assert (Hq : PrimFloat.is_nan (e / d) = false /\ FR (e / d) = 0).
  { rewrite FloatAxioms.eqb_spec in He. rewrite FloatAxioms.ltb_spec in Hd.
    unfold FR. rewrite is_nan_Prim2SF, div_spec. unfold SF64div.
    rewrite Prim2SF_zero in He, Hd. unfold SFeqb in He. unfold SFltb in Hd.
    destruct (Prim2SF e) as [se|se| |se me ee]; cbn in He; try discriminate;
      try (destruct se; discriminate).
    destruct (Prim2SF d) as [sd|sd| |sd md ed]; cbn in Hd; try discriminate;
      destruct sd; try discriminate; split; reflexivity. }
  destruct Hq as [Nq Hq].
  destruct (min_FR (e / d) 1 Nq eq_refl) as [Np Hp].
  rewrite Hq, FR_one, Rmin_left in Hp by lra.
  split; [|exact Hp]. apply finite_of_range; [exact Np|lra].
Qed.

Lemma value_at_start anim e :
  (e =? 0)%float = true -> (0 <? duration anim)%float = true ->
  finite (to anim - from anim) ->
  (value_at anim e =? from anim)%float = true /\
  (1 <=? progress_of e (duration anim))%float = false.
Proof.
  intros He Hd FD. destruct (progress_start e _ He Hd) as [Fp Hp].
  destruct (ease_range _ Fp ltac:(lra)) as [FE HE].
  pose proof (ease_zero _ Fp Hp) as HE0.
  destruct (sub_finite_inv _ _ FD) as [Ft Ff].
  destruct (span_scaled _ _ FD FE HE) as [Fx _].
  destruct (mul_nearest _ _ FD FE) as [_ Hx]. rewrite HE0, Rmult_0_r in Hx.
  pose proof (nearest_exact _ _ Hx in_format_0) as Hx0.
  destruct (add_nearest _ _ Ff Fx) as [Nv Hv]. rewrite Hx0, Rplus_0_r in Hv.
  pose proof (nearest_exact _ _ Hv (FR_format _)) as Hv0.
  split.
  - apply eqb_FR; auto using finite_not_nan.
  - apply leb_false_FR; auto using finite_not_nan. rewrite Hp, FR_one. lra.
Qed.

(** When the subtraction [to - from] is exact the end value is [to]. *)
Lemma stop_exact f t :
  finite (t - f) -> FR (t - f) = FR t - FR f ->
  (f + (t - f) =? t)%float = true.
Proof.
  intros FD Hex. destruct (sub_finite_inv _ _ FD) as [Ft Ff].
  destruct (add_nearest _ _ Ff FD) as [Nv Hv].
  replace (FR f + FR (t - f)) with (FR t) in Hv by lra.
  apply eqb_FR; auto using finite_not_nan.
  apply (nearest_exact _ _ Hv (FR_format _)).
Qed.

(** The subtraction is exact when an end of the span is zero. *)
Lemma span_exact_at_zero f t :
  finite (t - f) -> FR f = 0 \/ FR t = 0 -> FR (t - f) = FR t - FR f.
Proof.
  intros FD H0. destruct (sub_finite_inv _ _ FD) as [Ft Ff].
  destruct (sub_nearest t f Ft Ff) as [_ Hn].
  apply (nearest_exact _ _ Hn).
  destruct H0 as [H0|H0]; rewrite H0.
  - rewrite Rminus_0_r. apply FR_format.
  - rewrite Rminus_0_l. apply in_format_opp, FR_format.
Qed.

(** ** Durations that are not positive *)

Lemma progress_zero_duration e :
  PrimFloat.is_finite e = true -> (0 <? e)%float = true ->
  progress_of e 0 = 1%float.
Proof.
  intros Fe He. unfold progress_of.
  assert (Hq : (e / 0)%float = infinity).
  { apply Prim2SF_inj. rewrite div_spec. unfold SF64div.
    rewrite is_finite_spec in Fe. rewrite FloatAxioms.ltb_spec in He.
    rewrite Prim2SF_zero in *. unfold SFltb in He.
    destruct (Prim2SF e) as [se|se| |se me ee]; cbn in He, Fe; try discriminate.
    destruct se; try discriminate. reflexivity. }
  rewrite Hq. reflexivity.
Qed.

Lemma progress_negative_duration e d :
  finite e -> 0 <= FR e -> (d <? 0)%float = true ->
  (1 <=? progress_of e d)%float = false.
Proof.
  intros Fe He Hd. unfold progress_of.
  assert (Hq : PrimFloat.is_nan (e / d) = false /\ FR (e / d) <= 0).
  { destruct (ltb_true_inv _ _ Hd) as (Nd & _ & Hd0). rewrite FR_zero in Hd0.
    destruct (is_finite_SF (Prim2SF d)) eqn:Fd.
    - destruct (div_nearest e d Fe Fd ltac:(lra)) as [N Hn]. split; [exact N|].
      apply (nearest_le _ _ 0 Hn); auto with b64.
      assert (/ FR d < 0) by (apply Rinv_lt_0_compat; exact Hd0).
      unfold Rdiv. nra.
    - unfold finite in Fe. unfold FR. rewrite is_nan_Prim2SF in *. rewrite div_spec.
      unfold SF64div.
      destruct (Prim2SF d) as [sd|sd| |sd md ed]; try discriminate.
      destruct (Prim2SF e) as [se|se| |se me ee]; try discriminate;
        cbn; split; auto; lra. }
  destruct Hq as [Nq Hq].
  destruct (min_FR (e / d) 1 Nq eq_refl) as [Np Hp].
  apply leb_false_FR; auto.
  rewrite Hp, FR_one. apply Rle_lt_trans with (FR (e / d)); [apply Rmin_l|lra].
Qed.

(** * The properties of the specification, claim by claim *)

Local Open Scope float_scope.

(** C1. For an entity with an active entry, [update] returns
    [from + (to - from) * eased(p)] where [p = min(elapsed / duration, 1.0)],
    [eased(p) = 2*p*p] when [p < 0.5] and [1 - (-2p+2)^2 / 2] otherwise
    ([ease] is that function in the specification's words), at every
    clock reading. *)
Theorem update_value_formula now cardId (s : gmap Z animation) anim :
  s !! cardId = Some anim ->
  (update now cardId s).1 =
    Some (from anim + (to anim - from anim) *
            ease (Math.min ((now - startTime anim) / duration anim) 1)).
Proof. intros H. rewrite (update_present _ _ _ _ H). reflexivity. Qed.

Lemma update_value_formula_witness :
  one_entry 0 1 200 !! 7%Z = Some {| startTime := 0; duration := 200; from := 0;
                                     to := 1; property := hover |} /\
  (update 50 7 (one_entry 0 1 200)).1 =
    Some (0 + (1 - 0) * ease (Math.min ((50 - 0) / 200) 1)).
Proof.
  split; [reflexivity|].
  exact (update_value_formula 50 7 (one_entry 0 1 200)
           {| startTime := 0; duration := 200; from := 0; to := 1; property := hover |}
           eq_refl).
Defined.

(** C2 (as amended). For an entry with a positive duration: an [update] at
    elapsed time zero returns a value equal to [from] and keeps the entry,
    provided the span [to - from] is finite; an [update] at a finite elapsed
    time that has reached the duration returns [from + (to - from)] as
    binary64 arithmetic computes it, removes the entry, so that every later
    [update] reports absence; that end value equals [to] whenever the
    subtraction [to - from] is exact, as it is when [from] or [to] is
    zero. *)
Theorem update_at_start_and_end now cardId (s : gmap Z animation) anim :
  s !! cardId = Some anim ->
  (0 <? duration anim) = true ->
  let elapsed := now - startTime anim in
  let span := to anim - from anim in
  ((elapsed =? 0) = true -> PrimFloat.is_finite span = true ->
     exists v, update now cardId s = (Some v, s) /\ (v =? from anim) = true) /\
  (PrimFloat.is_finite elapsed = true -> (duration anim <=? elapsed) = true ->
     update now cardId s = (Some (from anim + span), delete cardId s) /\
     (forall now', update now' cardId (delete cardId s) = (None, delete cardId s)) /\
     (PrimFloat.is_finite span = true ->
      (FR span = (FR (to anim) - FR (from anim))%R ->
       (from anim + span =? to anim) = true) /\
      ((from anim =? 0) = true \/ (to anim =? 0) = true ->
       (from anim + span =? to anim) = true))).
Proof.
  intros Hs Hd. cbv zeta. split.
  - intros He Fspan. apply is_finite_finite in Fspan.
    destruct (value_at_start anim _ He Hd Fspan) as [Hv Hc].
    exists (value_at anim (now - startTime anim)). split; [|exact Hv].
    rewrite (update_present _ _ _ _ Hs). unfold completes. now rewrite Hc.
  - intros Fe Hde. split; [now apply update_done|]. split.
    + intros now'. apply update_deleted.
    + intros Fspan. apply is_finite_finite in Fspan.
      split; [intros Hex; now apply stop_exact|].
      intros H0. apply stop_exact; [exact Fspan|].
      destruct (sub_finite_inv _ _ Fspan) as [Ft Ff].
      apply span_exact_at_zero; [exact Fspan|].
      destruct H0 as [H0|H0]; [left|right];
        apply eqb_FR in H0; auto using finite_not_nan; now rewrite H0, FR_zero.
Qed.

Lemma update_at_start_and_end_witness :
  (exists v, update 0 7 (one_entry 0 1 200) = (Some v, one_entry 0 1 200) /\ (v =? 0) = true) /\
  update 200 7 (one_entry 0 1 200) = (Some (0 + (1 - 0)), delete 7%Z (one_entry 0 1 200)) /\
  update 300 7 (delete 7%Z (one_entry 0 1 200)) = (None, delete 7%Z (one_entry 0 1 200)) /\
  (0 + (1 - 0) =? 1) = true.
Proof.
  pose (a := {| startTime := 0; duration := 200; from := 0; to := 1; property := hover |}).
  destruct (update_at_start_and_end 0 7%Z (one_entry 0 1 200) a eq_refl eq_refl) as [H0 _].
  destruct (update_at_start_and_end 200 7%Z (one_entry 0 1 200) a eq_refl eq_refl) as [_ H1].
  destruct (H1 eq_refl eq_refl) as (H2 & H3 & H4).
  split; [exact (H0 eq_refl eq_refl)|]. split; [exact H2|]. split; [exact (H3 300)|].
  apply (H4 eq_refl). left. reflexivity.
Defined.

(** C2 as stated fails.  From 0.2 to 0.9 (duration 200) the completing
    [update] returns [0.2 + (0.9 - 0.2) * 1]: in binary64 [0.9 - 0.2] is 0.7
    and [0.2 + 0.7] is 0.8999999999999999, which is not 0.9.  From 1e16 to 1
    it returns 0, as [1 - 1e16] rounds to [-1e16].  From [-2^1023] to
    [2^1023] the span overflows to [Infinity] and the [update] at elapsed
    time zero returns [Infinity * 0], that is [NaN], which is not [from]. *)
Lemma update_end_value_is_not_to :
  (0 <? 200) = true /\
  (exists v, update 200 7 (one_entry 0.2 0.9 200) = (Some v, delete 7%Z (one_entry 0.2 0.9 200))
             /\ (v =? 0.9) = false) /\
  (update 200 7 (one_entry 1e16 1 200)).1 = Some 0 /\
  (exists v, (update 0 7 (one_entry (-0x1p1023) 0x1p1023 200)).1 = Some v
             /\ (v =? -0x1p1023) = false).
Proof.
  split; [reflexivity|]. split; [|split].
  - eexists. split; reflexivity.
  - reflexivity.
  - eexists. split; reflexivity.
Qed.

(** C3. Starting an animation for an entity that already has one replaces
    the entry, whatever its property tag: the state is the one the second
    start alone gives, the entry holds the second start's parameters, the
    number of entries does not grow, and every later [update] behaves as
    after the second start alone. *)
Theorem startAnimation_overwrites now1 now2 cardId p1 p2 f1 f2 t1 t2 d1 d2
    (s : gmap Z animation) :
  let s1 := startAnimation now1 cardId p1 f1 t1 d1 s in
  let s2 := startAnimation now2 cardId p2 f2 t2 d2 s1 in
  s2 = startAnimation now2 cardId p2 f2 t2 d2 s /\
  s2 !! cardId = Some {| startTime := now2; duration := d2; from := f2; to := t2;
                         property := p2 |} /\
  size s2 = size s1 /\
  forall now, update now cardId s2 =
              update now cardId (startAnimation now2 cardId p2 f2 t2 d2 s).
Proof.
  cbv zeta. unfold startAnimation.
  split; [apply insert_insert_eq|]. split; [apply lookup_insert_eq|]. split.
  - apply map_size_insert_Some. rewrite lookup_insert_eq. eauto.
  - intros now. now rewrite insert_insert_eq.
Qed.

(** C4 (as amended). For an entry with a positive duration whose span
    [to - from] is finite (the subtraction does not overflow), the values
    [update] returns at finite elapsed times [0 <= e1 <= e2] are ordered:
    when [from <= to], [from <= v1 <= v2]; when [to <= from],
    [v2 <= v1 <= from].  The easing function is monotone on [[0, 1]]. *)
Theorem update_monotone now1 now2 cardId (s : gmap Z animation) anim :
  s !! cardId = Some anim ->
  (0 <? duration anim) = true ->
  PrimFloat.is_finite (to anim - from anim) = true ->
  let e1 := now1 - startTime anim in
  let e2 := now2 - startTime anim in
  PrimFloat.is_finite e1 = true -> PrimFloat.is_finite e2 = true ->
  (0 <=? e1) = true -> (e1 <=? e2) = true ->
  (exists v1 v2,
     (update now1 cardId s).1 = Some v1 /\ (update now2 cardId s).1 = Some v2 /\
     ((from anim <=? to anim) = true -> (from anim <=? v1) = true /\ (v1 <=? v2) = true) /\
     ((to anim <=? from anim) = true -> (v2 <=? v1) = true /\ (v1 <=? from anim) = true)) /\
  (forall p1 p2,
     PrimFloat.is_finite p1 = true -> PrimFloat.is_finite p2 = true ->
     (0 <=? p1) = true -> (p1 <=? p2) = true -> (p2 <=? 1) = true ->
     (ease p1 <=? ease p2) = true).
Proof.
  intros Hs Hd Fspan. cbv zeta. intros F1 F2 H1 H12.
  apply is_finite_finite in Fspan, F1, F2.
  apply leb_true_inv in H1 as (_ & _ & H1). rewrite FR_zero in H1.
  apply leb_true_inv in H12 as (_ & _ & H12).
  destruct (sub_finite_inv _ _ Fspan) as [Ft Ff].
  pose proof (running_not_nan anim Hd Fspan _ F1 H1) as N1.
  pose proof (running_not_nan anim Hd Fspan _ F2 ltac:(lra)) as N2.
  split.
  - exists (value_at anim (now1 - startTime anim)), (value_at anim (now2 - startTime anim)).
    rewrite !(update_present _ _ _ _ Hs). cbn [fst].
    split; [reflexivity|]. split; [reflexivity|]. split; intros Hft.
    + apply leb_true_inv in Hft as (_ & _ & Hft).
      destruct (running_up anim Hd Fspan _ _ F1 F2 ltac:(lra) Hft).
      split; apply leb_intro; auto using finite_not_nan.
    + apply leb_true_inv in Hft as (_ & _ & Hft).
      destruct (running_down anim Hd Fspan _ _ F1 F2 ltac:(lra) Hft).
      split; apply leb_intro; auto using finite_not_nan.
  - intros p1 p2 Fp1 Fp2 Hp1 Hp12 Hp2.
    apply is_finite_finite in Fp1, Fp2.
    apply leb_true_inv in Hp1 as (_ & _ & Hp1). rewrite FR_zero in Hp1.
    apply leb_true_inv in Hp12 as (_ & _ & Hp12).
    apply leb_true_inv in Hp2 as (_ & _ & Hp2). rewrite FR_one in Hp2.
    destruct (ease_range p1 Fp1 ltac:(lra)) as [FE1 _].
    destruct (ease_range p2 Fp2 ltac:(lra)) as [FE2 _].
    apply leb_intro; auto using finite_not_nan.
    apply ease_mono; auto; lra.
Qed.

Lemma update_monotone_witness :
  (exists v1 v2,
     (update 50 7 (one_entry 0.25 0.75 200)).1 = Some v1 /\
     (update 150 7 (one_entry 0.25 0.75 200)).1 = Some v2 /\
     ((0.25 <=? 0.75) = true -> (0.25 <=? v1) = true /\ (v1 <=? v2) = true) /\
     ((0.75 <=? 0.25) = true -> (v2 <=? v1) = true /\ (v1 <=? 0.25) = true)) /\
  (ease 0.25 <=? ease 0.75) = true.
Proof.
  pose (a := {| startTime := 0; duration := 200; from := 0.25; to := 0.75;
                property := hover |}).
  destruct (update_monotone 50 150 7%Z (one_entry 0.25 0.75 200) a
              eq_refl eq_refl eq_refl eq_refl eq_refl eq_refl eq_refl) as [H1 H2].
  split; [exact H1|]. apply H2; reflexivity.
Defined.

(** C4 as stated fails.  From [-2^1023] to [2^1023] (so [from < to],
    duration 200) the span [to - from] overflows to [Infinity]; the [update]
    at elapsed time zero returns [from + Infinity * 0], that is [NaN], and
    the one at elapsed time 100 returns [Infinity]: the first value is
    neither at least [from] nor at most the second. *)
Lemma update_not_monotone_when_span_overflows :
  (0 <? 200) = true /\ (-0x1p1023 <? 0x1p1023) = true /\
  exists v1 v2,
    (update 0 7 (one_entry (-0x1p1023) 0x1p1023 200)).1 = Some v1 /\
    (update 100 7 (one_entry (-0x1p1023) 0x1p1023 200)).1 = Some v2 /\
    (v1 <=? v2) = false /\ (-0x1p1023 <=? v1) = false.
Proof.
  split; [reflexivity|]. split; [reflexivity|].
  eexists _, _. repeat split; reflexivity.
Qed.

(** C5 (as amended). For an entry whose duration is zero ([+0]), an
    [update] at a later clock reading (finite elapsed time above zero)
    completes it at once: it returns [from + (to - from)], removes the
    entry, and every later [update] reports absence.  For an entry whose
    duration is below zero, an [update] at any finite elapsed time [>= 0]
    returns a value and leaves the state as it was: the entry stays
    active. *)
Theorem update_nonpositive_duration now cardId (s : gmap Z animation) anim :
  s !! cardId = Some anim ->
  let elapsed := now - startTime anim in
  PrimFloat.is_finite elapsed = true ->
  (duration anim = 0 -> (0 <? elapsed) = true ->
     update now cardId s = (Some (from anim + (to anim - from anim)), delete cardId s) /\
     forall now', update now' cardId (delete cardId s) = (None, delete cardId s)) /\
  ((duration anim <? 0) = true -> (0 <=? elapsed) = true ->
     exists v, update now cardId s = (Some v, s) /\
               isAnimating cardId (update now cardId s).2 = true).
Proof.
  intros Hs. cbv zeta. intros Fe. split.
  - intros Hd He. split; [|intros now'; apply update_deleted].
    assert (Hp : progress_of (now - startTime anim) (duration anim) = 1).
    { rewrite Hd. now apply progress_zero_duration. }
    rewrite (update_present _ _ _ _ Hs). unfold completes.
    rewrite (value_at_done _ _ Hp), Hp. reflexivity.
  - intros Hd He. apply is_finite_finite in Fe.
    apply leb_true_inv in He as (_ & _ & He). rewrite FR_zero in He.
    pose proof (progress_negative_duration _ _ Fe He Hd) as Hc.
    rewrite (update_present _ _ _ _ Hs). unfold completes. rewrite Hc. cbn [snd].
    eexists. split; [reflexivity|]. apply isAnimating_true. eauto.
Qed.

Lemma update_nonpositive_duration_witness :
  update 50 7 (one_entry 0 1 0) = (Some (0 + (1 - 0)), delete 7%Z (one_entry 0 1 0)) /\
  (exists v, update 50 7 (one_entry 0 1 (-100)) = (Some v, one_entry 0 1 (-100)) /\
             isAnimating 7 (update 50 7 (one_entry 0 1 (-100))).2 = true).
Proof.
  split.
  - apply (update_nonpositive_duration 50 7%Z (one_entry 0 1 0)
             {| startTime := 0; duration := 0; from := 0; to := 1; property := hover |}
             eq_refl eq_refl); reflexivity.
  - apply (update_nonpositive_duration 50 7%Z (one_entry 0 1 (-100))
             {| startTime := 0; duration := -100; from := 0; to := 1; property := hover |}
             eq_refl eq_refl); reflexivity.
Defined.

(** C5 as stated fails: an entry started with duration -100 is still active
    after an [update] at elapsed time 50 and after a second one at elapsed
    time 1000, where the value returned is 200; an entry started with
    duration 0 is still active after an [update] at the start timestamp
    itself, which returns [NaN]. *)
Lemma update_negative_duration_never_completes :
  (-100 <=? 0) = true /\
  isAnimating 7 (update 50 7 (one_entry 0 1 (-100))).2 = true /\
  isAnimating 7 (update 1000 7 (update 50 7 (one_entry 0 1 (-100))).2).2 = true /\
  (update 1000 7 (one_entry 0 1 (-100))).1 = Some 200 /\
  isAnimating 7 (update 0 7 (one_entry 0 1 0)).2 = true /\
  (update 0 7 (one_entry 0 1 0)).1 = Some nan.
Proof. repeat split; reflexivity. Qed.

(** C6. For an entity with no active entry [update] returns [null] and
    leaves the state as it is, however often it is called; [isAnimating]
    is false for it.  The operations are total functions: each returns a
    result on every state and every identifier, and none throws. *)
Theorem update_absent_idempotent cardId (s : gmap Z animation) :
  s !! cardId = None ->
  (forall now, update now cardId s = (None, s)) /\
  (forall nows, update_all nows cardId s = (map (fun _ => None) nows, s)) /\
  isAnimating cardId s = false /\
  (forall now id p f t d (s0 : gmap Z animation),
     (exists s', startAnimation now id p f t d s0 = s') /\
     (exists v s', update now id s0 = (v, s')) /\
     (exists b, isAnimating id s0 = b) /\ (exists b, hasActiveAnimations s0 = b)).
Proof.
  intros H. split; [intros now; now apply update_absent|]. split; [|split].
  - induction nows as [|now nows IH]; [reflexivity|].
    cbn [update_all map]. rewrite (update_absent now _ _ H), IH. reflexivity.
  - now apply isAnimating_false.
  - intros. repeat split; eauto. destruct (update now id s0); eauto.
Qed.

Lemma update_absent_idempotent_witness :
  (one_entry 0 1 200 !! 99%Z = None) /\
  update 10 99 (one_entry 0 1 200) = (None, one_entry 0 1 200) /\
  update_all [10; 20; 30] 99 (one_entry 0 1 200) = ([None; None; None], one_entry 0 1 200) /\
  isAnimating 99 (one_entry 0 1 200) = false.
Proof.
  assert (H : one_entry 0 1 200 !! 99%Z = None) by reflexivity.
  destruct (update_absent_idempotent 99 (one_entry 0 1 200) H) as (H1 & H2 & H3 & _).
  split; [exact H|]. split; [exact (H1 10)|]. split; [exact (H2 [10; 20; 30])|exact H3].
Defined.

(** C7. After [start(5, "hover", 0, 1, 200)] at time 0, [update(5)] at
    time 100 returns 0.5 and keeps the entry, [update(5)] at time 250
    returns 1 and removes it, and every later [update(5)] returns [null]. *)
Theorem scenario_hover (s : gmap Z animation) :
  let s1 := startAnimation 0 5 hover 0 1 200 s in
  update 100 5 s1 = (Some 0.5, s1) /\
  update 250 5 s1 = (Some 1, delete 5%Z s1) /\
  forall now, update now 5 (delete 5%Z s1) = (None, delete 5%Z s1).
Proof.
  cbv zeta.
  assert (H : startAnimation 0 5 hover 0 1 200 s !! 5%Z =
              Some {| startTime := 0; duration := 200; from := 0; to := 1;
                      property := hover |}) by apply lookup_insert_eq.
  split; [|split].
  - rewrite (update_present _ _ _ _ H). reflexivity.
  - rewrite (update_present _ _ _ _ H). reflexivity.
  - intros now. apply update_deleted.
Qed.

(** C8. [isAnimating] is the existence test of the entry and returns a
    boolean only; it is true right after [startAnimation], and false once an
    [update] made when the elapsed time has reached the (positive) duration
    has completed the entry.  [hasActiveAnimations] is true exactly when
    some entry remains. *)
Theorem isAnimating_lifecycle :
  (forall cardId (s : gmap Z animation),
     isAnimating cardId s = true <-> is_Some (s !! cardId)) /\
  (forall now cardId p f t d (s : gmap Z animation),
     isAnimating cardId (startAnimation now cardId p f t d s) = true) /\
  (forall now cardId (s : gmap Z animation) anim,
     s !! cardId = Some anim ->
     (0 <? duration anim) = true ->
     PrimFloat.is_finite (now - startTime anim) = true ->
     (duration anim <=? now - startTime anim) = true ->
     isAnimating cardId (update now cardId s).2 = false) /\
  (forall s : gmap Z animation,
     hasActiveAnimations s = true <-> exists cardId, isAnimating cardId s = true).
Proof.
  split; [exact isAnimating_true|]. split; [|split].
  - intros. apply isAnimating_true. unfold startAnimation.
    rewrite lookup_insert_eq. eauto.
  - intros now cardId s anim Hs Hd Fe Hde.
    rewrite (update_done _ _ _ _ Hs Hd Fe Hde). cbn [snd].
    apply isAnimating_false, lookup_delete_eq.
  - intros s. unfold hasActiveAnimations. rewrite bool_decide_eq_true. split.
    + intros H. destruct (map_choose s) as (i & x & Hi).
      { intros ->. rewrite map_size_empty in H. lia. }
      exists i. apply isAnimating_true. eauto.
    + intros (i & Hi). apply isAnimating_true in Hi as [x Hx].
      destruct (decide (size s = 0%nat)) as [Hz|]; [|lia].
      apply map_size_empty_inv in Hz. subst s. rewrite lookup_empty in Hx. discriminate.
Qed.

Lemma isAnimating_lifecycle_witness :
  isAnimating 3 (startAnimation 0 3 flip 0 1 300 empty) = true /\
  isAnimating 3 (update 300 3 (startAnimation 0 3 flip 0 1 300 empty)).2 = false /\
  hasActiveAnimations (startAnimation 0 3 flip 0 1 300 empty) = true.
Proof.
  destruct isAnimating_lifecycle as (_ & H1 & H2 & H3).
  split; [apply H1|]. split.
  - apply (H2 300 3%Z (startAnimation 0 3 flip 0 1 300 empty)
             {| startTime := 0; duration := 300; from := 0; to := 1; property := flip |});
      reflexivity.
  - apply H3. exists 3%Z. apply H1.
Defined.

(** C9. [startAnimation] and [update] for one entity leave the entry of
    every other entity as it was; an [update] whose progress is below 1
    leaves the whole state as it was; and the state after any [update] is
    the state before it, or that state without the entity's entry. *)
Theorem other_entries_untouched :
  (forall now e e' p f t d (s : gmap Z animation),
     e <> e' -> startAnimation now e p f t d s !! e' = s !! e') /\
  (forall now e e' (s : gmap Z animation),
     e <> e' -> (update now e s).2 !! e' = s !! e') /\
  (forall now e (s : gmap Z animation) anim,
     s !! e = Some anim ->
     (progress_of (now - startTime anim) (duration anim) <? 1) = true ->
     (update now e s).2 = s) /\
  (forall now e (s : gmap Z animation),
     (update now e s).2 = s \/ (update now e s).2 = delete e s).
Proof.
  assert (Hcases : forall now e (s : gmap Z animation),
            (update now e s).2 = s \/ (update now e s).2 = delete e s).
  { intros now e s. destruct (s !! e) as [a|] eqn:Hs.
    - rewrite (update_present _ _ _ _ Hs). cbn [snd].
      destruct (completes a now); [now right|now left].
    - rewrite (update_absent _ _ _ Hs). now left. }
  split; [|split; [|split]].
  - intros. unfold startAnimation. now apply lookup_insert_ne.
  - intros now e e' s Hne. destruct (Hcases now e s) as [-> | ->]; [reflexivity|].
    now apply lookup_delete_ne.
  - intros now e s anim Hs Hp. rewrite (update_present _ _ _ _ Hs). cbn [snd].
    unfold completes. now rewrite (ltb_leb_false _ _ Hp).
  - exact Hcases.
Qed.

Lemma other_entries_untouched_witness :
  startAnimation 10 2 flip 0 1 300 (one_entry 0 1 200) !! 7%Z = one_entry 0 1 200 !! 7%Z /\
  (update 250 7 (startAnimation 10 2 flip 0 1 300 (one_entry 0 1 200))).2 !! 2%Z =
    startAnimation 10 2 flip 0 1 300 (one_entry 0 1 200) !! 2%Z /\
  (update 100 7 (one_entry 0 1 200)).2 = one_entry 0 1 200.
Proof.
  destruct other_entries_untouched as (H1 & H2 & H3 & _).
  split; [apply H1; discriminate|]. split; [apply H2; discriminate|].
  apply (H3 100 7%Z (one_entry 0 1 200)
           {| startTime := 0; duration := 200; from := 0; to := 1; property := hover |});
    reflexivity.
Defined.

(** C10 (as amended). For an entry with a positive duration whose span
    [to - from] is finite, at every finite elapsed time [>= 0] the clamped
    progress is in [[0, 1]], the eased progress is in [[0, 1]], and the value
    [update] returns lies between [from] and [from + (to - from)], the
    value returned on completion; that end value equals [to] whenever the
    subtraction [to - from] is exact. *)
Theorem update_value_range now cardId (s : gmap Z animation) anim :
  s !! cardId = Some anim ->
  (0 <? duration anim) = true ->
  PrimFloat.is_finite (to anim - from anim) = true ->
  let elapsed := now - startTime anim in
  PrimFloat.is_finite elapsed = true -> (0 <=? elapsed) = true ->
  let p := progress_of elapsed (duration anim) in
  let stop := from anim + (to anim - from anim) in
  ((0 <=? p) = true /\ (p <=? 1) = true) /\
  ((0 <=? ease p) = true /\ (ease p <=? 1) = true) /\
  (exists v, (update now cardId s).1 = Some v /\
     ((from anim <=? to anim) = true -> (from anim <=? v) = true /\ (v <=? stop) = true) /\
     ((to anim <=? from anim) = true -> (stop <=? v) = true /\ (v <=? from anim) = true)) /\
  (FR (to anim - from anim) = (FR (to anim) - FR (from anim))%R -> (stop =? to anim) = true).
Proof.
  intros Hs Hd Fspan. cbv zeta. intros Fe He.
  apply is_finite_finite in Fspan, Fe.
  apply leb_true_inv in He as (_ & _ & He). rewrite FR_zero in He.
  destruct (sub_finite_inv _ _ Fspan) as [Ft Ff].
  destruct (running_progress anim Hd _ Fe He) as [[Fp Hp] [FE HE]].
  pose proof (running_not_nan anim Hd Fspan _ Fe He) as Nv.
  pose proof (stop_not_nan anim Fspan) as Ns.
  split; [|split; [|split]].
  - split; apply leb_intro; auto using finite_not_nan; rewrite ?FR_zero, ?FR_one; lra.
  - split; apply leb_intro; auto using finite_not_nan; rewrite ?FR_zero, ?FR_one; lra.
  - exists (value_at anim (now - startTime anim)).
    rewrite (update_present _ _ _ _ Hs). cbn [fst].
    split; [reflexivity|]. split; intros Hft;
      apply leb_true_inv in Hft as (_ & _ & Hft).
    + destruct (running_up anim Hd Fspan _ _ Fe Fe ltac:(lra) Hft) as [Hlo _].
      pose proof (running_below_stop anim Hd Fspan _ Fe He Hft).
      split; apply leb_intro; auto using finite_not_nan.
    + destruct (running_down anim Hd Fspan _ _ Fe Fe ltac:(lra) Hft) as [_ Hhi].
      pose proof (running_above_stop anim Hd Fspan _ Fe He Hft).
      split; apply leb_intro; auto using finite_not_nan.
  - intros Hex. now apply stop_exact.
Qed.

Lemma update_value_range_witness :
  ((0 <=? progress_of (120 - 0) 200) = true /\ (progress_of (120 - 0) 200 <=? 1) = true) /\
  ((0 <=? ease (progress_of (120 - 0) 200)) = true /\
   (ease (progress_of (120 - 0) 200) <=? 1) = true) /\
  (exists v, (update 120 7 (one_entry 0.3 0.9 200)).1 = Some v /\
     ((0.3 <=? 0.9) = true -> (0.3 <=? v) = true /\ (v <=? 0.3 + (0.9 - 0.3)) = true) /\
     ((0.9 <=? 0.3) = true -> (0.3 + (0.9 - 0.3) <=? v) = true /\ (v <=? 0.3) = true)).
Proof.
  destruct (update_value_range 120 7%Z (one_entry 0.3 0.9 200)
           {| startTime := 0; duration := 200; from := 0.3; to := 0.9; property := hover |}
           eq_refl eq_refl eq_refl eq_refl eq_refl) as (H1 & H2 & H3 & _).
  split; [exact H1|]. split; [exact H2|exact H3].
Defined.

(** C10 as stated fails.  From 0.3 to 0.9 (duration 200) the completing
    [update] returns [0.3 + (0.9 - 0.3) * 1]: in binary64 [0.9 - 0.3] is
    0.6000000000000001 and the sum is 0.9000000000000001, above both bounds.
    From 0.9 to 0.1 it returns 0.09999999999999998, below both; from -1e16
    to 3 it returns 4; and from [-2^1023] to [2^1023], where the span
    overflows, the [update] at elapsed time zero returns [NaN]. *)
Lemma update_value_leaves_from_to_interval :
  (0 <? 200) = true /\
  (exists v, (update 200 7 (one_entry 0.3 0.9 200)).1 = Some v /\ (v <=? 0.9) = false) /\
  (exists v, (update 200 7 (one_entry 0.9 0.1 200)).1 = Some v /\ (0.1 <=? v) = false) /\
  (update 200 7 (one_entry (-1e16) 3 200)).1 = Some 4 /\
  (exists v, (update 0 7 (one_entry (-0x1p1023) 0x1p1023 200)).1 = Some v /\
             (-0x1p1023 <=? v) = false).
Proof.
  split; [reflexivity|]. split; [|split; [|split]].
  - eexists. split; reflexivity.
  - eexists. split; reflexivity.
  - reflexivity.
  - eexists. split; reflexivity.
Qed.
